(** * BlogHub: comment threads of [useComments] over the comments schema

    The hook [useComments] (src/hooks/useComments.ts) fetches the comments
    of a post, organises them into a tree, and offers three mutations.  The
    tables it talks to are declared in
    supabase/migrations/20250906130542_stark_cherry.sql.

    The development has three parts:
    - the tree construction of [fetchComments], over a heap of JavaScript
      objects (the nodes are shared between the map, the root array and
      the [replies] arrays, so they are modelled by address);
    - the fragment of the schema the hook uses: the tables [comments] and
      [comment_likes], their row-level-security policies, the cascading
      foreign keys and the like-count trigger;
    - the hook itself and the submit handlers of [CommentSection], as
      programs of a small state-and-exception monad over the store and the
      React state. *)

From stdpp Require Import gmap strings list sorting.
From Stdlib Require Import ZArith.

(** ** JavaScript truthiness

    [!s] on a string is true exactly for the empty string; on
    [string | null] it is true for [null] and for the empty string. *)

Definition truthy (s : string) : bool := bool_decide (s ≠ "").

Definition truthy_opt (o : option string) : bool := from_option truthy false o.

(** [x || null] on an optional string. *)
Definition or_null (o : option string) : option string :=
  if truthy_opt o then o else None.

(** ** Data model *)

(** [profiles (full_name, email, avatar_url)], the columns joined into
    every comment by the select of [fetchComments]. *)
Record Profile := mkProfile {
  full_name : option string;
  email : string;
  avatar_url : option string
}.

(** A row of [public.comments]. *)
Module Row.
Record t := mk {
  id : string;
  post_id : string;
  author_id : string;
  parent_id : option string;
  content : string;
  likes_count : Z;
  created_at : string;
  updated_at : string
}.
End Row.

(** [interface Comment] without [replies]: the columns and the joined
    profile, as one element of [data]. *)
Record Comment := mkComment {
  columns :> Row.t;
  profiles : option Profile
}.

#[global] Instance Profile_eq_dec : EqDecision Profile.
Proof. solve_decision. Defined.
#[global] Instance Row_eq_dec : EqDecision Row.t.
Proof. solve_decision. Defined.
#[global] Instance Comment_eq_dec : EqDecision Comment.
Proof. solve_decision. Defined.

(** ** The tree, as an object graph

    [{ ...comment, replies: [] }] allocates a fresh object; its address is
    its position in the heap.  A [replies] array holds references;
    [None] stands for [undefined], which is what
    [commentMap.get(comment.id)!] evaluates to when the key is missing. *)

Abbreviation addr := nat (only parsing).

Record Node := mkNode {
  fields : Comment;
  replies : list (option addr)
}.

(** The locals of [fetchComments] while the tree is built. *)
Record Builder := mkBuilder {
  heap : list Node;
  commentMap : gmap string addr;
  rootComments : list addr
}.

Definition empty_builder : Builder :=
  {| heap := []; commentMap := ∅; rootComments := [] |}.

(** First [data?.forEach]: index the copy, and push it on the root array
    when [!comment.parent_id]. *)
Definition index_comment (st : Builder) (comment : Comment) : Builder :=
  let commentWithReplies := length (heap st) in
  {| heap := heap st ++ [ {| fields := comment; replies := [] |} ];
     commentMap := <[Row.id comment := commentWithReplies]> (commentMap st);
     rootComments :=
       if negb (truthy_opt (Row.parent_id comment))
       then rootComments st ++ [commentWithReplies]
       else rootComments st |}.

(** [parent.replies!.push(x)]. *)
Definition push_reply (parent : addr) (x : option addr) (h : list Node) : list Node :=
  alter (λ n, {| fields := fields n; replies := replies n ++ [x] |}) parent h.

(** Second [data?.forEach]: attach the indexed copy to its indexed parent,
    when there is one. *)
Definition attach_comment (st : Builder) (comment : Comment) : Builder :=
  if truthy_opt (Row.parent_id comment) then
    match Row.parent_id comment ≫= (commentMap st !!.) with
    | Some parent =>
        {| heap := push_reply parent (commentMap st !! Row.id comment) (heap st);
           commentMap := commentMap st;
           rootComments := rootComments st |}
    | None => st
    end
  else st.

(** The value given to [setComments]: the root array together with the
    objects it reaches. *)
Record Tree := mkTree {
  nodes : list Node;
  roots : list addr
}.

Definition empty_tree : Tree := {| nodes := []; roots := [] |}.

Definition buildTree (data : list Comment) : Tree :=
  let st1 := foldl index_comment empty_builder data in
  let st2 := foldl attach_comment st1 data in
  {| nodes := heap st2; roots := rootComments st2 |}.

(** Reading the graph: the comment an address holds, the comments of a
    root array, the comments of a [replies] array. *)
Definition comment_at (t : Tree) (a : addr) : option Comment :=
  fields <$> nodes t !! a.

Definition root_comments (t : Tree) : list (option Comment) :=
  comment_at t <$> roots t.

Definition children (t : Tree) (n : Node) : list (option Comment) :=
  (λ r, r ≫= comment_at t) <$> replies n.

(** A node is rendered when it can be reached from the root array through
    [replies] ([CommentItem] maps over [comment.replies]). *)
Inductive reachable (t : Tree) : addr → Prop :=
  | reachable_root a : a ∈ roots t → reachable t a
  | reachable_reply p n a :
      reachable t p → nodes t !! p = Some n → Some a ∈ replies n → reachable t a.

(** [p] lists [a]: the [replies] array of the node at [p] holds a reference
    to the node at [a].  [CommentItem] recurses along this relation. *)
Definition lists (t : Tree) (p a : addr) : Prop :=
  ∃ n, nodes t !! p = Some n ∧ Some a ∈ replies n.

(** The rows of one query over [comments]: [id] is a [uuid] primary key
    and [parent_id] a [uuid] column, so ids are pairwise distinct and their
    text is never empty. *)
Definition is_uuid_text (s : string) : Prop := s ≠ "".

Definition ids (data : list Comment) : list string :=
  (λ c : Comment, Row.id c) <$> data.

Record flat_comment_set (data : list Comment) : Prop := {
  ids_unique : NoDup (ids data);
  ids_uuid : Forall (λ c : Comment, is_uuid_text (Row.id c)) data;
  parent_ids_uuid :
    Forall (λ c : Comment, ∀ p, Row.parent_id c = Some p → is_uuid_text p) data
}.

(** A comment is anchored when its [parent_id] chain ends, within the
    array, in a comment without parent. *)
Inductive anchored (data : list Comment) : Comment → Prop :=
  | anchored_root (d : Comment) :
      d ∈ data → Row.parent_id d = None → anchored data d
  | anchored_reply (c d : Comment) :
      anchored data c → d ∈ data → Row.parent_id d = Some (Row.id c) →
      anchored data d.

(** The addresses of the elements of [l] that satisfy [p], counting from
    [base]. *)
Fixpoint positions {A} (p : A → bool) (base : nat) (l : list A) : list nat :=
  match l with
  | [] => []
  | x :: l => (if p x then [base] else []) ++ positions p (S base) l
  end.

Definition is_root (c : Comment) : bool := negb (truthy_opt (Row.parent_id c)).

(** [commentMap] after the first pass. *)
Definition index_of (data : list Comment) : gmap string addr :=
  commentMap (foldl index_comment empty_builder data).

(** The comments whose second-pass step pushes onto the node at [a]. *)
Definition attaches (m : gmap string addr) (a : addr) (c : Comment) : Prop :=
  truthy_opt (Row.parent_id c) = true ∧ Row.parent_id c ≫= (m !!.) = Some a.

#[global] Instance attaches_dec m a c : Decision (attaches m a c).
Proof. unfold attaches. apply _. Defined.

Definition pushed (m : gmap string addr) (a : addr) (data : list Comment) : list (option addr) :=
  (λ c : Comment, m !! Row.id c) <$> filter (attaches m a) data.

(** ** Example rows

    The thread of the specification's scenario (a root, its reply, a second
    root), and the rows used to probe the edge cases: an orphan reply and a
    comment that names itself as parent. *)

Definition row (i : string) (parent : option string) (ts : string) : Comment :=
  {| columns := Row.mk i "post-1" "alice" parent "text" 0 ts ts;
     profiles := Some (mkProfile (Some "Alice") "alice@example.org" None) |}.

Definition thread : list Comment :=
  [ row "c1" None "2025-09-06T13:00:00+00:00";
    row "c2" (Some "c1") "2025-09-06T13:05:00+00:00";
    row "c3" None "2025-09-06T13:10:00+00:00" ].

Definition thread_with_orphan : list Comment :=
  thread ++ [ row "c4" (Some "c9") "2025-09-06T13:15:00+00:00" ].

Definition thread_with_cycle : list Comment :=
  thread ++ [ row "c5" (Some "c5") "2025-09-06T13:20:00+00:00" ].

(** Arrays that are not flat comment sets, to see what the two passes do
    with them: a [parent_id] that is the empty string, and two comments with
    the same [id].  No query over [comments] returns such rows. *)
Definition thread_with_empty_parent : list Comment :=
  thread ++ [ row "c6" (Some "") "2025-09-06T13:25:00+00:00" ].

Definition thread_with_duplicate : list Comment :=
  [ row "c1" None "2025-09-06T13:00:00+00:00";
    row "c7" (Some "c1") "2025-09-06T13:05:00+00:00";
    row "c7" (Some "c9") "2025-09-06T13:10:00+00:00" ].

(** Ascending [created_at], as the order of the rendered timestamps. *)
Definition created_le (c d : Comment) : Prop :=
  String.le (Row.created_at c) (Row.created_at d).

(** ** The store

    The fragment of the schema behind the hook: [comments], [comment_likes],
    and the two tables their foreign keys point to, [profiles] (whose
    columns the select joins in) and [posts] (ids only). *)

(** A row of [public.comment_likes]. *)
Module Like.
Record t := mk {
  id : string;
  comment_id : string;
  user_id : string;
  created_at : string
}.
End Like.

#[global] Instance Like_eq_dec : EqDecision Like.t.
Proof. solve_decision. Defined.

Record Store := mkStore {
  comments_tbl : list Row.t;
  comment_likes_tbl : list Like.t;
  profiles_tbl : gmap string Profile;
  posts_tbl : gset string
}.

(** The error object of a response. *)
Record PostgrestError := mkError {
  message : string;
  code : string
}.

Definition rls_violation : PostgrestError :=
  {| message := "new row violates row-level security policy"; code := "42501" |}.
Definition unique_violation : PostgrestError :=
  {| message := "duplicate key value violates unique constraint"; code := "23505" |}.
Definition foreign_key_violation : PostgrestError :=
  {| message := "insert or update on table violates foreign key constraint";
     code := "23503" |}.
Definition not_a_single_row : PostgrestError :=
  {| message := "JSON object requested, multiple (or no) rows returned";
     code := "PGRST116" |}.

(** *** Reading *)

(** [from('comments').select('*, profiles (full_name, email, avatar_url)')
    .eq('post_id', postId).order('created_at', { ascending: true })].
    Policy "Comments are viewable by everyone": [USING (true)].  [leb] is the
    store's order on [timestamptz] values, on their rendered text. *)
Definition select_comments (leb : string → string → bool) (s : Store)
    (postId : string) : list Comment :=
  (λ r, {| columns := r; profiles := profiles_tbl s !! Row.author_id r |})
  <$> merge_sort (λ r1 r2, Is_true (leb (Row.created_at r1) (Row.created_at r2)))
        (filter (λ r, Row.post_id r = postId) (comments_tbl s)).

(** [from('comment_likes').select('id').eq('comment_id', c).eq('user_id', u)].
    Policy "Comment likes are viewable by everyone": [USING (true)]. *)
Definition select_likes (s : Store) (commentId userId : string) : list Like.t :=
  filter (λ l, Like.comment_id l = commentId ∧ Like.user_id l = userId)
         (comment_likes_tbl s).

(** [.single()]: the row when there is exactly one, otherwise no data and
    an error. *)
Definition single {A} (rows : list A) : PostgrestError + A :=
  match rows with
  | [x] => inr x
  | _ => inl not_a_single_row
  end.

(** *** The like-count trigger

    [update_comment_likes_count] runs [UPDATE comments SET likes_count =
    likes_count + d WHERE id = c] after each insert ([d = 1]) or delete
    ([d = -1]) on [comment_likes].  The function is declared without
    [SECURITY DEFINER] (unlike [handle_new_user]), so the update runs as the
    caller and passes through the policy "Users can update their own
    comments", [USING (auth.uid() = author_id)]: only rows the caller
    authored are updated.  An updated row also passes through
    [update_comments_updated_at], which stamps [updated_at]. *)
Definition may_update_comment (uid : option string) (r : Row.t) : Prop :=
  uid = Some (Row.author_id r).

#[global] Instance may_update_comment_dec uid r : Decision (may_update_comment uid r).
Proof. unfold may_update_comment. apply _. Defined.

Definition update_comment_likes_count (uid : option string) (now : string) (d : Z)
    (commentId : string) (tbl : list Row.t) : list Row.t :=
  (λ r, if decide (Row.id r = commentId ∧ may_update_comment uid r)
        then Row.mk (Row.id r) (Row.post_id r) (Row.author_id r) (Row.parent_id r)
                    (Row.content r) (Row.likes_count r + d)%Z
                    (Row.created_at r) now
        else r) <$> tbl.

(** *** Writing to [comment_likes] *)

(** [insert([{ comment_id, user_id }])].  Policy "Authenticated users can
    like comments": [TO authenticated WITH CHECK (auth.uid() = user_id)];
    primary key [id], [UNIQUE(comment_id, user_id)], foreign keys to
    [comments] and [profiles]; then the trigger. *)
Definition insert_like (uid : option string) (fresh now : string)
    (commentId userId : string) (s : Store) : PostgrestError + Store :=
  if negb (bool_decide (uid = Some userId)) then inl rls_violation
  else if bool_decide (fresh ∈ Like.id <$> comment_likes_tbl s) then inl unique_violation
  else if bool_decide (select_likes s commentId userId ≠ []) then inl unique_violation
  else if negb (bool_decide (commentId ∈ Row.id <$> comments_tbl s))
       then inl foreign_key_violation
  else if negb (bool_decide (is_Some (profiles_tbl s !! userId)))
       then inl foreign_key_violation
  else inr {| comments_tbl :=
                update_comment_likes_count uid now 1 commentId (comments_tbl s);
              comment_likes_tbl :=
                comment_likes_tbl s ++ [Like.mk fresh commentId userId now];
              profiles_tbl := profiles_tbl s;
              posts_tbl := posts_tbl s |}.

(** [delete().eq('id', likeId)].  Policy "Users can remove their own comment
    likes": [USING (auth.uid() = user_id)], so other rows are left alone
    without an error; the trigger runs once per deleted row. *)
Definition may_delete_like (uid : option string) (l : Like.t) : Prop :=
  uid = Some (Like.user_id l).

#[global] Instance may_delete_like_dec uid l : Decision (may_delete_like uid l).
Proof. unfold may_delete_like. apply _. Defined.

Definition delete_likes (uid : option string) (now : string) (likeId : string)
    (s : Store) : Store :=
  let hit l := Like.id l = likeId ∧ may_delete_like uid l in
  {| comments_tbl :=
       foldl (λ tbl l, update_comment_likes_count uid now (-1) (Like.comment_id l) tbl)
             (comments_tbl s) (filter hit (comment_likes_tbl s));
     comment_likes_tbl := filter (λ l, ¬ hit l) (comment_likes_tbl s);
     profiles_tbl := profiles_tbl s;
     posts_tbl := posts_tbl s |}.

(** *** Writing to [comments] *)

(** [insert([{ post_id, author_id, parent_id, content }])].  Policy
    "Authenticated users can create comments": [TO authenticated WITH CHECK
    (auth.uid() = author_id)]; primary key [id], foreign keys to [posts],
    [profiles] and [comments]; [likes_count] defaults to 0 and both
    timestamps to [now()]. *)
Definition insert_comment (uid : option string) (fresh now : string)
    (postId authorId : string) (parentId : option string) (text : string)
    (s : Store) : PostgrestError + Store :=
  if negb (bool_decide (uid = Some authorId)) then inl rls_violation
  else if bool_decide (fresh ∈ Row.id <$> comments_tbl s) then inl unique_violation
  else if negb (bool_decide (postId ∈ posts_tbl s)) then inl foreign_key_violation
  else if negb (bool_decide (is_Some (profiles_tbl s !! authorId)))
       then inl foreign_key_violation
  else if negb (from_option (λ p, bool_decide (p ∈ Row.id <$> comments_tbl s)) true parentId)
       then inl foreign_key_violation
  else inr {| comments_tbl :=
                comments_tbl s
                ++ [Row.mk fresh postId authorId parentId text 0 now now];
              comment_likes_tbl := comment_likes_tbl s;
              profiles_tbl := profiles_tbl s;
              posts_tbl := posts_tbl s |}.

(** [parent_id uuid REFERENCES comments(id) ON DELETE CASCADE]: once the
    comments with ids [gone] are deleted, so are the rows that name one of
    them as parent, then the rows that name those, and so on.  Every round
    that deletes something shortens the table, so [length tbl] rounds are
    enough ([cascade_fuel]). *)
Definition child_of (gone : list string) (r : Row.t) : Prop :=
  ∃ p, Row.parent_id r = Some p ∧ p ∈ gone.

#[global] Instance child_of_dec gone r : Decision (child_of gone r).
Proof.
  unfold child_of. destruct (Row.parent_id r) as [p|].
  - destruct (decide (p ∈ gone)); [left; eauto | right; intros (? & [= <-] & ?); done].
  - right. by intros (? & ? & _).
Defined.

Fixpoint cascade (fuel : nat) (gone : list string) (tbl : list Row.t) : list Row.t :=
  match fuel with
  | O => tbl
  | S fuel =>
      match filter (child_of gone) tbl with
      | [] => tbl
      | victims =>
          cascade fuel (Row.id <$> victims) (filter (λ r, ¬ child_of gone r) tbl)
      end
  end.

(** [delete().eq('id', commentId)].  Policy "Users can delete their own
    comments": [USING (auth.uid() = author_id)], so a comment of someone
    else is left alone without an error.  The foreign keys then cascade
    (referential actions are not subject to the policies): replies through
    [parent_id], likes through [comment_likes.comment_id].  The trigger of a
    cascaded like finds its comment already gone. *)
Definition may_delete_comment (uid : option string) (r : Row.t) : Prop :=
  uid = Some (Row.author_id r).

#[global] Instance may_delete_comment_dec uid r : Decision (may_delete_comment uid r).
Proof. unfold may_delete_comment. apply _. Defined.

Definition delete_comments (uid : option string) (commentId : string)
    (s : Store) : Store :=
  let hit r := Row.id r = commentId ∧ may_delete_comment uid r in
  let kept :=
    cascade (length (comments_tbl s))
            (Row.id <$> filter hit (comments_tbl s))
            (filter (λ r, ¬ hit r) (comments_tbl s)) in
  let removed := Row.id <$> filter (λ r, r ∉ kept) (comments_tbl s) in
  {| comments_tbl := kept;
     comment_likes_tbl :=
       filter (λ l, Like.comment_id l ∉ removed) (comment_likes_tbl s);
     profiles_tbl := profiles_tbl s;
     posts_tbl := posts_tbl s |}.

(** ** The client side

    What the hook sees of the backend: the signed-in user, and for every
    request either the store's answer or a failure.  [fates] scripts the
    latter: the head decides the next request, [Served] with the values the
    store draws for [gen_random_uuid()] and [now()], [Refused] with the
    error of a request that never reached the tables (transport, service).
    An exhausted script refuses.  [journal] records the requests sent. *)

Module AuthUser.
Record t := mk { id : string }.
End AuthUser.

Inductive Request :=
  | SelectComments (postId : string)
  | InsertComment (postId authorId : string) (parentId : option string) (text : string)
  | DeleteComments (commentId : string)
  | SelectLike (commentId userId : string)
  | DeleteLikes (likeId : string)
  | InsertLike (commentId userId : string).

#[global] Instance Request_eq_dec : EqDecision Request.
Proof. solve_decision. Defined.

Definition is_write (q : Request) : bool :=
  match q with
  | SelectComments _ | SelectLike _ _ => false
  | InsertComment _ _ _ _ | DeleteComments _ | DeleteLikes _ | InsertLike _ _ => true
  end.

Inductive Fate :=
  | Served (uuid now : string)
  | Refused (e : PostgrestError).

Definition offline : PostgrestError :=
  {| message := "TypeError: Failed to fetch"; code := "" |}.

Record World := mkWorld {
  db : Store;
  session : option AuthUser.t;
  fates : list Fate;
  journal : list Request;
  ts_leb : string → string → bool
}.

(** [auth.uid()] of the policies. *)
Definition auth_uid (w : World) : option string := AuthUser.id <$> session w.

(** The state of [useComments]. *)
Module Hook.
Record t := mk {
  comments : Tree;
  loading : bool;
  error : option string
}.
End Hook.

(** The state of [CommentSection]. *)
Record Form := mkForm {
  newComment : string;
  replyingTo : option string;
  replyContent : string
}.

Record App := mkApp {
  world : World;
  hook : Hook.t;
  form : Form
}.

(** What a [throw] carries: [new Error(msg)], or the error object of a
    response. *)
Inductive Thrown :=
  | Error (msg : string)
  | Rejected (e : PostgrestError).

(** Async functions of the client: state passing with exceptions. *)
Definition M (A : Type) : Type := App → (Thrown + A) * App.

#[global] Instance M_ret : MRet M := λ A x s, (inr x, s).

#[global] Instance M_bind : MBind M := λ A B f m s,
  match m s with
  | (inl e, s') => (inl e, s')
  | (inr x, s') => f x s'
  end.

Definition throw {A} (e : Thrown) : M A := λ s, (inl e, s).

(** [try { body } catch (error) { handler }]. *)
Definition try_catch {A} (body : M A) (handler : Thrown → M A) : M A := λ s,
  match body s with
  | (inl e, s') => handler e s'
  | (inr x, s') => (inr x, s')
  end.

(** [try { body } finally { cleanup }]. *)
Definition finally {A} (body : M A) (cleanup : M unit) : M A := λ s,
  let '(r, s') := body s in
  match cleanup s' with
  | (inl e, s'') => (inl e, s'')
  | (inr _, s'') => (r, s'')
  end.

Definition get_world : M World := λ s, (inr (world s), s).
Definition get_form : M Form := λ s, (inr (form s), s).

Definition set_db (d : Store) : M unit := λ s,
  let w := world s in
  (inr (), {| world := {| db := d; session := session w; fates := fates w;
                          journal := journal w; ts_leb := ts_leb w |};
              hook := hook s; form := form s |}).

Definition setComments (t : Tree) : M unit := λ s,
  (inr (), {| world := world s;
              hook := {| Hook.comments := t; Hook.loading := Hook.loading (hook s);
                         Hook.error := Hook.error (hook s) |};
              form := form s |}).

Definition setLoading (b : bool) : M unit := λ s,
  (inr (), {| world := world s;
              hook := {| Hook.comments := Hook.comments (hook s); Hook.loading := b;
                         Hook.error := Hook.error (hook s) |};
              form := form s |}).

Definition setError (e : option string) : M unit := λ s,
  (inr (), {| world := world s;
              hook := {| Hook.comments := Hook.comments (hook s);
                         Hook.loading := Hook.loading (hook s); Hook.error := e |};
              form := form s |}).

Definition setNewComment (v : string) : M unit := λ s,
  (inr (), {| world := world s; hook := hook s;
              form := {| newComment := v; replyingTo := replyingTo (form s);
                         replyContent := replyContent (form s) |} |}).

Definition setReplyContent (v : string) : M unit := λ s,
  (inr (), {| world := world s; hook := hook s;
              form := {| newComment := newComment (form s);
                         replyingTo := replyingTo (form s); replyContent := v |} |}).

Definition setReplyingTo (v : option string) : M unit := λ s,
  (inr (), {| world := world s; hook := hook s;
              form := {| newComment := newComment (form s); replyingTo := v;
                         replyContent := replyContent (form s) |} |}).

(** One request: it is recorded, and the script decides its fate. *)
Definition send (q : Request) : M Fate := λ s,
  let w := world s in
  let '(f, rest) :=
    match fates w with
    | f :: rest => (f, rest)
    | [] => (Refused offline, [])
    end in
  (inr f, {| world := {| db := db w; session := session w; fates := rest;
                         journal := journal w ++ [q]; ts_leb := ts_leb w |};
             hook := hook s; form := form s |}).

(** [{ data, error }]: the builders resolve, they do not throw. *)
Record Response (A : Type) := mkResponse {
  data : option A;
  error : option PostgrestError
}.
Arguments mkResponse {A} _ _.
Arguments data {A} _.
Arguments error {A} _.

Definition failed {A} (e : PostgrestError) : Response A :=
  {| data := None; error := Some e |}.

(** [supabase.auth.getUser()], destructured to [userData.user]. *)
Definition getUser : M (option AuthUser.t) :=
  w ← get_world; mret (session w).

Definition comments_select (postId : string) : M (Response (list Comment)) :=
  f ← send (SelectComments postId);
  w ← get_world;
  mret (match f with
        | Served _ _ =>
            {| data := Some (select_comments (ts_leb w) (db w) postId);
               error := None |}
        | Refused e => failed e
        end).

Definition comment_likes_select_single (commentId userId : string)
    : M (Response string) :=
  f ← send (SelectLike commentId userId);
  w ← get_world;
  mret (match f with
        | Served _ _ =>
            match single (select_likes (db w) commentId userId) with
            | inr l => {| data := Some (Like.id l); error := None |}
            | inl e => failed e
            end
        | Refused e => failed e
        end).

(** An insert or delete without [.select()]: no data either way. *)
Definition mutate (q : Request)
    (run : option string → string → string → Store → PostgrestError + Store)
    : M (Response ()) :=
  f ← send q;
  w ← get_world;
  match f with
  | Served fresh now =>
      match run (auth_uid w) fresh now (db w) with
      | inr d => set_db d ;; mret {| data := None; error := None |}
      | inl e => mret (failed e)
      end
  | Refused e => mret (failed e)
  end.

Definition comments_insert (postId authorId : string) (parentId : option string)
    (text : string) : M (Response ()) :=
  mutate (InsertComment postId authorId parentId text)
         (λ uid fresh now s, insert_comment uid fresh now postId authorId parentId text s).

Definition comments_delete (commentId : string) : M (Response ()) :=
  mutate (DeleteComments commentId)
         (λ uid _ _ s, inr (delete_comments uid commentId s)).

Definition comment_likes_insert (commentId userId : string) : M (Response ()) :=
  mutate (InsertLike commentId userId)
         (λ uid fresh now s, insert_like uid fresh now commentId userId s).

Definition comment_likes_delete (likeId : string) : M (Response ()) :=
  mutate (DeleteLikes likeId)
         (λ uid _ now s, inr (delete_likes uid now likeId s)).

(** ** [useComments] *)

Section useComments.
Variable postId : option string.

(** [if (!postId) return], then the query; on success the tree is
    rebuilt and stored; a failure is caught and recorded, not rethrown. *)
Definition fetchComments : M () :=
  match or_null postId with
  | None => mret ()
  | Some post =>
      finally
        (try_catch
           (setLoading true ;;
            r ← comments_select post;
            match error r with
            | Some e => throw (Rejected e)
            | None => setComments (buildTree (default [] (data r)))
            end)
           (λ _, setError (Some "Failed to load comments")))
        (setLoading false)
  end.

Definition createComment (text : string) (parentId : option string) : M () :=
  match or_null postId with
  | None => throw (Error "No post ID provided")
  | Some post =>
      try_catch
        (user ← getUser;
         match user with
         | None => throw (Error "Not authenticated")
         | Some u =>
             r ← comments_insert post (AuthUser.id u) (or_null parentId) text;
             match error r with
             | Some e => throw (Rejected e)
             | None => fetchComments
             end
         end)
        (λ e, throw e)
  end.

Definition deleteComment (commentId : string) : M () :=
  try_catch
    (r ← comments_delete commentId;
     match error r with
     | Some e => throw (Rejected e)
     | None => fetchComments
     end)
    (λ e, throw e).

(** The responses of the two writes are awaited and dropped. *)
Definition toggleCommentLike (commentId : string) : M () :=
  try_catch
    (user ← getUser;
     match user with
     | None => throw (Error "Not authenticated")
     | Some u =>
         existingLike ← comment_likes_select_single commentId (AuthUser.id u);
         match data existingLike with
         | Some likeId => comment_likes_delete likeId ;; mret ()
         | None => comment_likes_insert commentId (AuthUser.id u) ;; mret ()
         end ;;
         fetchComments
     end)
    (λ e, throw e).
End useComments.

(** ** [CommentSection] *)

(** [String.prototype.trim], on text of code units below 256: white space
    and line terminators are TAB, LF, VT, FF, CR, SP and NBSP. *)
Definition is_white_space (a : Ascii.ascii) : bool :=
  bool_decide (Ascii.nat_of_ascii a ∈ [9; 10; 11; 12; 13; 32; 160]).

Fixpoint trim_start (s : string) : string :=
  match s with
  | String a s' => if is_white_space a then trim_start s' else s
  | EmptyString => EmptyString
  end.

Definition trim (s : string) : string :=
  String.rev (trim_start (String.rev (trim_start s))).

Definition is_object {A} (o : option A) : bool :=
  match o with Some _ => true | None => false end.

Section CommentSection.
(** [postId] of the props, [user] of [useAuth()]. *)
Variables (postId : string) (user : option AuthUser.t).

Definition handleSubmitComment : M () :=
  f ← get_form;
  if negb (truthy (trim (newComment f))) || negb (is_object user) then mret ()
  else
    try_catch
      (createComment (Some postId) (newComment f) None ;;
       setNewComment "")
      (λ _, mret ()).

Definition handleSubmitReply (parentId : string) : M () :=
  f ← get_form;
  if negb (truthy (trim (replyContent f))) || negb (is_object user) then mret ()
  else
    try_catch
      (createComment (Some postId) (replyContent f) (Some parentId) ;;
       setReplyContent "" ;;
       setReplyingTo None)
      (λ _, mret ()).

(** [confirmed] is the answer of [window.confirm]. *)
Definition handleDeleteComment (confirmed : bool) (commentId : string) : M () :=
  if negb confirmed then mret ()
  else try_catch (deleteComment (Some postId) commentId) (λ _, mret ()).

Definition handleToggleLike (commentId : string) : M () :=
  if negb (is_object user) then mret ()
  else try_catch (toggleCommentLike (Some postId) commentId) (λ _, mret ()).
End CommentSection.

(** ** Post slugs and tags

    The two string computations around posts: the slug of [createPost]
    (src/hooks/usePosts.ts) and the tag list of the post form
    ([CreatePostPage]).  As for [trim], the text is taken with code units
    below 256. *)

Definition code_unit (a : Ascii.ascii) : nat := Ascii.nat_of_ascii a.

Definition in_range (lo hi : nat) (a : Ascii.ascii) : bool :=
  (lo <=? code_unit a) && (code_unit a <=? hi).

(** [\w]: letters, digits and the underscore. *)
Definition is_word (a : Ascii.ascii) : bool :=
  in_range 48 57 a || in_range 65 90 a || in_range 97 122 a || (code_unit a =? 95).

Definition hyphen : Ascii.ascii := Ascii.ascii_of_nat 45.

Definition is_hyphen (a : Ascii.ascii) : bool := code_unit a =? 45.

(** [String.prototype.toLowerCase] on one code unit: A-Z, and the capital
    letters of the Latin-1 block (all of C0-DE but the multiplication
    sign). *)
Definition to_lower_char (a : Ascii.ascii) : Ascii.ascii :=
  if in_range 65 90 a || (in_range 192 222 a && negb (code_unit a =? 215))
  then Ascii.ascii_of_nat (code_unit a + 32)
  else a.

Fixpoint string_map (f : Ascii.ascii → Ascii.ascii) (s : string) : string :=
  match s with
  | String a s' => String (f a) (string_map f s')
  | EmptyString => EmptyString
  end.

Fixpoint string_filter (p : Ascii.ascii → bool) (s : string) : string :=
  match s with
  | String a s' => if p a then String a (string_filter p s') else string_filter p s'
  | EmptyString => EmptyString
  end.

Fixpoint string_all (p : Ascii.ascii → bool) (s : string) : bool :=
  match s with
  | String a s' => p a && string_all p s'
  | EmptyString => true
  end.

Definition toLowerCase : string → string := string_map to_lower_char.

(** [.replace(/[^\w\s-]/g, '')]: only word characters, white space and
    hyphens stay. *)
Definition strip_punctuation : string → string :=
  string_filter (λ a, is_word a || is_white_space a || is_hyphen a).

(** [.replace(/\s+/g, '-')]: every maximal run of white space becomes one
    hyphen; [in_run] tells that the previous character was white space. *)
Fixpoint dash_runs (in_run : bool) (s : string) : string :=
  match s with
  | String a s' =>
      if is_white_space a
      then if in_run then dash_runs true s' else String hyphen (dash_runs true s')
      else String a (dash_runs false s')
  | EmptyString => EmptyString
  end.

(** The slug [createPost] derives from the title. *)
Definition slugify (title : string) : string :=
  dash_runs false (strip_punctuation (toLowerCase title)).

(** The characters a slug can hold: a-z, 0-9, underscore, hyphen. *)
Definition slug_char (a : Ascii.ascii) : bool :=
  in_range 97 122 a || in_range 48 57 a || (code_unit a =? 95) || is_hyphen a.

Definition comma : Ascii.ascii := Ascii.ascii_of_nat 44.
Definition space : Ascii.ascii := Ascii.ascii_of_nat 32.

(** [s.split(',')]. *)
Definition is_comma (a : Ascii.ascii) : bool := code_unit a =? 44.

Fixpoint split_commas (s : string) : list string :=
  match s with
  | String a s' =>
      if is_comma a then EmptyString :: split_commas s'
      else match split_commas s' with
           | t :: ts => String a t :: ts
           | [] => [String a EmptyString]
           end
  | EmptyString => [EmptyString]
  end.

(** [tags.join(', ')]. *)
Fixpoint join_tags (tags : list string) : string :=
  match tags with
  | [] => EmptyString
  | t :: ts =>
      match ts with
      | [] => t
      | _ => t +:+ ", " +:+ join_tags ts
      end
  end.

(** [data.tags.split(',').map((tag) => tag.trim()).filter((tag) =>
    tag.length > 0)] of [onSubmit]. *)
Definition parse_tags (s : string) : list string :=
  filter (λ t, 0 < String.length t) (trim <$> split_commas s).

(** A tag as the form stores it: not empty, no white space at either end,
    no comma. *)
Definition clean_tag (t : string) : Prop :=
  t ≠ EmptyString ∧ trim t = t ∧ string_all (λ a, negb (is_comma a)) t = true.

(** The characters of a string, and [trim_start] on them. *)
Fixpoint chars (s : string) : list Ascii.ascii :=
  match s with
  | String a s' => a :: chars s'
  | EmptyString => []
  end.

Fixpoint drop_white_space (l : list Ascii.ascii) : list Ascii.ascii :=
  match l with
  | a :: l' => if is_white_space a then drop_white_space l' else l
  | [] => []
  end.

(** ** Vocabulary of the properties *)

(** The write requests of a journal. *)
Definition writes (j : list Request) : list Request :=
  filter (λ q, is_write q = true) j.

(** The [likes_count] a fetch of [postId] reports for [commentId]. *)
Definition reported_likes (w : World) (postId commentId : string) : option Z :=
  (λ c : Comment, Row.likes_count c)
  <$> head (filter (λ c : Comment, Row.id c = commentId)
                   (select_comments (ts_leb w) (db w) postId)).

(** [d] is a reply to [c], or a reply to a reply, and so on: the
    [parent_id] chain of [d] leads to [c] through rows of the table. *)
Inductive descends (tbl : list Row.t) (c : Row.t) : Row.t → Prop :=
  | descends_reply d :
      d ∈ tbl → Row.parent_id d = Some (Row.id c) → descends tbl c d
  | descends_deeper e d :
      descends tbl c e → d ∈ tbl → Row.parent_id d = Some (Row.id e) →
      descends tbl c d.


(** ** An example backend

    One post with the thread of the scenario: [c1] by alice, its reply [c2]
    by bob, and [c3] by bob; nobody has liked anything yet. *)

Definition alice : AuthUser.t := AuthUser.mk "alice".
Definition bob : AuthUser.t := AuthUser.mk "bob".

Definition demo_store : Store :=
  {| comments_tbl :=
       [ Row.mk "c1" "post-1" "alice" None "first" 0
                "2025-09-06T13:00:00+00:00" "2025-09-06T13:00:00+00:00";
         Row.mk "c2" "post-1" "bob" (Some "c1") "reply" 0
                "2025-09-06T13:05:00+00:00" "2025-09-06T13:05:00+00:00";
         Row.mk "c3" "post-1" "bob" None "second" 0
                "2025-09-06T13:10:00+00:00" "2025-09-06T13:10:00+00:00" ];
     comment_likes_tbl := [];
     profiles_tbl :=
       {[ "alice" := mkProfile (Some "Alice") "alice@example.org" None;
          "bob" := mkProfile None "bob@example.org" None ]};
     posts_tbl := {[ "post-1" ]} |}.

Definition backend (s : Store) (u : option AuthUser.t) (script : list Fate) : World :=
  {| db := s; session := u; fates := script; journal := [];
     ts_leb := String.leb |}.

Definition mounted (w : World) : App :=
  {| world := w;
     hook := {| Hook.comments := empty_tree; Hook.loading := false;
                Hook.error := None |};
     form := {| newComment := ""; replyingTo := None; replyContent := "" |} |}.

(** A script that serves every request, drawing the given uuids. *)
Definition served (uuids : list string) : list Fate :=
  (λ u, Served u "2025-09-07T09:00:00+00:00") <$> uuids.

(** Whether the script serves the next request. *)
Definition head_served (w : World) : bool :=
  match fates w with Served _ _ :: _ => true | _ => false end.

(** What the next write comes to: the new tables, or the error of the
    response. *)
Definition outcome
    (run : option string → string → string → Store → PostgrestError + Store)
    (w : World) : PostgrestError + Store :=
  match fates w with
  | Served fresh now :: _ => run (auth_uid w) fresh now (db w)
  | Refused e :: _ => inl e
  | [] => inl offline
  end.

(** The three mutations of the hook, as one call. *)
Inductive Mutation :=
  | CreateComment (text : string) (parentId : option string)
  | DeleteComment (commentId : string)
  | ToggleCommentLike (commentId : string).

Definition perform (postId : option string) (m : Mutation) : M () :=
  match m with
  | CreateComment text parentId => createComment postId text parentId
  | DeleteComment commentId => deleteComment postId commentId
  | ToggleCommentLike commentId => toggleCommentLike postId commentId
  end.

(** Sessions on the example backend: nobody signed in; alice, every request
    served; bob, every request served; alice, with the transport failing on
    her first request. *)
Definition signed_out : App := mounted (backend demo_store None []).

Definition alice_online : App :=
  mounted (backend demo_store (Some alice) (served ["u1"; "u2"; "u3"; "u4"; "u5"; "u6"])).

Definition bob_online : App :=
  mounted (backend demo_store (Some bob) (served ["u1"; "u2"; "u3"; "u4"; "u5"; "u6"])).

Definition alice_offline : App :=
  mounted (backend demo_store (Some alice) [Refused offline]).


(** Alice's hook after a fetch that failed. *)
Definition after_failed_fetch : App :=
  (fetchComments (Some "post-1") alice_offline).2.

(** A visitor whose session has ended, with a comment typed in. *)
Definition expired_draft : App :=
  {| world := world signed_out; hook := hook signed_out;
     form := {| newComment := "hello"; replyingTo := None; replyContent := "" |} |}.

(** Alice with a draft of blanks in both text areas. *)
Definition blank_draft : App :=
  {| world := world alice_online; hook := hook alice_online;
     form := {| newComment := "   "; replyingTo := Some "c1";
                replyContent := String (Ascii.ascii_of_nat 9) " " |} |}.

(** Bob's state after the lookup of his like on [c9], a comment that is
    not in the store. *)
Definition bob_after_lookup : App :=
  (comment_likes_select_single "c9" "bob" bob_online).2.

(** ** The constraints of the schema

    What the declarations of the migration promise about the tables: the
    primary keys ([uuid], so distinct and not empty as text), the foreign
    keys of [comments] and [comment_likes], and [UNIQUE(comment_id,
    user_id)]. *)

Definition like_key (l : Like.t) : string * string :=
  (Like.comment_id l, Like.user_id l).

Record store_wf (s : Store) : Prop := {
  comments_pkey : NoDup (Row.id <$> comments_tbl s);
  comments_id_uuid : Forall (λ r, is_uuid_text (Row.id r)) (comments_tbl s);
  comments_post_fkey : Forall (λ r, Row.post_id r ∈ posts_tbl s) (comments_tbl s);
  comments_author_fkey :
    Forall (λ r, is_Some (profiles_tbl s !! Row.author_id r)) (comments_tbl s);
  comments_parent_fkey :
    Forall (λ r, ∀ p, Row.parent_id r = Some p → p ∈ Row.id <$> comments_tbl s)
           (comments_tbl s);
  comment_likes_pkey : NoDup (Like.id <$> comment_likes_tbl s);
  comment_likes_unique : NoDup (like_key <$> comment_likes_tbl s);
  comment_likes_comment_fkey :
    Forall (λ l, Like.comment_id l ∈ Row.id <$> comments_tbl s) (comment_likes_tbl s);
  comment_likes_user_fkey :
    Forall (λ l, is_Some (profiles_tbl s !! Like.user_id l)) (comment_likes_tbl s)
}.

(** The store draws uuids: what a served request brings is uuid text. *)
Definition uuid_fate (f : Fate) : Prop :=
  match f with
  | Served u _ => is_uuid_text u
  | Refused _ => True
  end.

(** The columns of a comment that the constraints look at; the trigger
    changes none of them. *)
Definition key (r : Row.t) : string * string * string * option string :=
  (Row.id r, Row.post_id r, Row.author_id r, Row.parent_id r).

(** * Properties *)

(** ** The two passes of the tree construction *)

Section passes.
Implicit Types (st : Builder) (data : list Comment) (c : Comment).

Lemma index_pass_heap st data :
  heap (foldl index_comment st data)
  = heap st ++ ((λ c, {| fields := c; replies := [] |}) <$> data).
Proof.
  revert st. induction data as [|c data IH]; intros st; simpl.
  - by rewrite app_nil_r.
  - rewrite IH. simpl. by rewrite <- app_assoc.
Qed.

Lemma index_pass_roots st data :
  rootComments (foldl index_comment st data)
  = rootComments st ++ positions is_root (length (heap st)) data.
Proof.
  revert st. induction data as [|c data IH]; intros st; simpl.
  - by rewrite app_nil_r.
  - rewrite IH. simpl. rewrite length_app. simpl.
    replace (length (heap st) + 1) with (S (length (heap st))) by lia.
    unfold is_root. destruct (negb _); simpl; [by rewrite <- app_assoc | done].
Qed.

Lemma index_pass_map_fresh st data k :
  k ∉ ids data →
  commentMap (foldl index_comment st data) !! k = commentMap st !! k.
Proof.
  revert st. induction data as [|c data IH]; intros st Hk; simpl; [done|].
  unfold ids in Hk. rewrite fmap_cons, not_elem_of_cons in Hk.
  destruct Hk as [Hne Hk]. rewrite IH by done. simpl.
  by rewrite lookup_insert_ne.
Qed.

Lemma index_pass_map_unique st data i c :
  NoDup (ids data) → data !! i = Some c →
  commentMap (foldl index_comment st data) !! Row.id c
  = Some (length (heap st) + i).
Proof.
  revert st i. induction data as [|d data IH]; intros st i Hnd Hi; [done|].
  unfold ids in Hnd. rewrite fmap_cons in Hnd. apply NoDup_cons in Hnd as [Hd Hnd].
  destruct i as [|i]; simpl in *.
  - injection Hi as ->. rewrite index_pass_map_fresh by done. simpl.
    rewrite lookup_insert_eq. f_equal. lia.
  - rewrite (IH _ i) by done. simpl. rewrite length_app. simpl. f_equal. lia.
Qed.

Lemma attach_comment_map st c :
  commentMap (attach_comment st c) = commentMap st.
Proof. unfold attach_comment. by repeat case_match. Qed.

Lemma attach_comment_roots st c :
  rootComments (attach_comment st c) = rootComments st.
Proof. unfold attach_comment. by repeat case_match. Qed.

Lemma attach_pass_map st data :
  commentMap (foldl attach_comment st data) = commentMap st.
Proof.
  revert st. induction data as [|c data IH]; intros st; simpl; [done|].
  by rewrite IH, attach_comment_map.
Qed.

Lemma attach_pass_roots st data :
  rootComments (foldl attach_comment st data) = rootComments st.
Proof.
  revert st. induction data as [|c data IH]; intros st; simpl; [done|].
  by rewrite IH, attach_comment_roots.
Qed.

Lemma attach_comment_heap st c a n :
  heap st !! a = Some n →
  heap (attach_comment st c) !! a
  = Some {| fields := fields n;
            replies := replies n ++ pushed (commentMap st) a [c] |}.
Proof.
  intros Ha. unfold pushed. rewrite filter_cons, filter_nil.
  destruct (decide (attaches (commentMap st) a c)) as [[Ht Hp]|Hn];
    unfold attach_comment; simpl.
  - rewrite Ht, Hp. simpl. unfold push_reply.
    rewrite list_lookup_alter_eq. by rewrite Ha.
  - rewrite app_nil_r.
    assert (Some n = Some {| fields := fields n; replies := replies n |})
      as <- by (by destruct n).
    destruct (truthy_opt (Row.parent_id c)) eqn:Ht; [|done].
    destruct (Row.parent_id c ≫= (commentMap st !!.)) as [p|] eqn:Hp; [|done].
    simpl. unfold push_reply. rewrite list_lookup_alter_ne; [done|].
    intros ->. by apply Hn.
Qed.

Lemma attach_pass_heap st data a n :
  heap st !! a = Some n →
  heap (foldl attach_comment st data) !! a
  = Some {| fields := fields n;
            replies := replies n ++ pushed (commentMap st) a data |}.
Proof.
  revert st n. induction data as [|c data IH]; intros st n Ha; simpl.
  - unfold pushed. rewrite filter_nil. simpl. rewrite app_nil_r. by destruct n.
  - erewrite IH by (by apply attach_comment_heap). simpl.
    rewrite attach_comment_map. do 2 f_equal. rewrite <- app_assoc. f_equal.
    unfold pushed. rewrite (filter_cons _ c data).
    rewrite filter_cons, filter_nil.
    destruct (decide (attaches (commentMap st) a c)); simpl; done.
Qed.

Lemma attach_pass_length st data :
  length (heap (foldl attach_comment st data)) = length (heap st).
Proof.
  revert st. induction data as [|c data IH]; intros st; simpl; [done|].
  rewrite IH. unfold attach_comment, push_reply.
  repeat case_match; simpl; try done. by rewrite length_alter.
Qed.
End passes.

(** ** Positions of a list *)

Lemma elem_of_positions {A} (p : A → bool) base (l : list A) a :
  a ∈ positions p base l ↔ ∃ i x, l !! i = Some x ∧ p x = true ∧ a = base + i.
Proof.
  revert base. induction l as [|y l IH]; intros base; simpl.
  - split; [by intros ?%elem_of_nil | by intros (i & x & ? & _)].
  - rewrite elem_of_app, IH. split.
    + intros [Hy | (i & x & Hi & Hp & ->)].
      * destruct (p y) eqn:Hp; [|by apply elem_of_nil in Hy].
        apply list_elem_of_singleton in Hy as ->.
        exists 0, y. split_and!; [done | done | lia].
      * exists (S i), x. split_and!; [done | done | lia].
    + intros ([|i] & x & Hi & Hp & ->); simpl in Hi.
      * injection Hi as ->. left. rewrite Hp, list_elem_of_singleton. lia.
      * right. exists i, x. split_and!; [done | done | lia].
Qed.

Lemma positions_fetch {A} (p : A → bool) (pre l : list A) :
  (λ i, (pre ++ l) !! i) <$> positions p (length pre) l
  = Some <$> filter (λ x, p x = true) l.
Proof.
  revert pre. induction l as [|y l IH]; intros pre; simpl; [done|].
  rewrite fmap_app, filter_cons.
  specialize (IH (pre ++ [y])). rewrite length_app in IH. simpl in IH.
  replace (length pre + 1) with (S (length pre)) in IH by lia.
  rewrite <- app_assoc in IH. simpl in IH. rewrite IH.
  destruct (decide (p y = true)) as [Hp|Hp].
  - rewrite Hp. simpl. f_equal.
    by rewrite lookup_app_r, Nat.sub_diag by lia.
  - by apply not_true_is_false in Hp as ->.
Qed.

(** ** What [buildTree] computes, for any input *)

Lemma index_of_Some data k a :
  index_of data !! k = Some a →
  ∃ c : Comment, data !! a = Some c ∧ Row.id c = k.
Proof.
  unfold index_of.
  assert (∀ st,
    commentMap (foldl index_comment st data) !! k = Some a →
    commentMap st !! k = Some a ∨
    ∃ i (c : Comment), data !! i = Some c ∧ Row.id c = k ∧ a = length (heap st) + i)
    as Hgen.
  { induction data as [|d data IH]; intros st Hk; simpl in *; [by left|].
    apply IH in Hk as [Hk | (i & c & Hi & Hc & ->)].
    - simpl in Hk. destruct (decide (Row.id d = k)) as [<-|Hne].
      + rewrite lookup_insert_eq in Hk. injection Hk as <-.
        right. exists 0, d. split_and!; [done | done | lia].
      + rewrite lookup_insert_ne in Hk by done. by left.
    - right. exists (S i), c. simpl. rewrite length_app. simpl.
      split_and!; [done | done | lia]. }
  intros Hk. apply Hgen in Hk as [Hk | (i & c & Hi & Hc & ->)]; [done|].
  exists c. by simpl.
Qed.

Lemma index_of_None data k : k ∉ ids data → index_of data !! k = None.
Proof. intros Hk. unfold index_of. by rewrite index_pass_map_fresh. Qed.

Lemma index_of_unique data i (c : Comment) :
  NoDup (ids data) → data !! i = Some c → index_of data !! Row.id c = Some i.
Proof.
  intros Hnd Hi. unfold index_of.
  by rewrite (index_pass_map_unique _ _ i) by done.
Qed.

Lemma buildTree_roots data : roots (buildTree data) = positions is_root 0 data.
Proof.
  unfold buildTree. simpl. by rewrite attach_pass_roots, index_pass_roots.
Qed.

Lemma buildTree_nodes data a :
  nodes (buildTree data) !! a
  = (λ c, {| fields := c; replies := pushed (index_of data) a data |}) <$> data !! a.
Proof.
  unfold buildTree. simpl.
  destruct (data !! a) as [c|] eqn:Ha; simpl.
  - rewrite (attach_pass_heap _ _ a {| fields := c; replies := [] |}); [done|].
    rewrite index_pass_heap. simpl. by rewrite list_lookup_fmap, Ha.
  - apply lookup_ge_None. rewrite attach_pass_length, index_pass_heap. simpl.
    rewrite length_fmap. by apply lookup_ge_None.
Qed.

Lemma buildTree_length data : length (nodes (buildTree data)) = length data.
Proof.
  unfold buildTree. simpl.
  rewrite attach_pass_length, index_pass_heap. simpl. by rewrite length_fmap.
Qed.

Lemma buildTree_comment_at data a :
  comment_at (buildTree data) a = data !! a.
Proof.
  unfold comment_at. rewrite buildTree_nodes. by destruct (data !! a).
Qed.

Lemma buildTree_root_comments data :
  root_comments (buildTree data) = Some <$> filter (λ c, is_root c = true) data.
Proof.
  unfold root_comments. rewrite buildTree_roots.
  rewrite <- (positions_fetch is_root [] data). simpl.
  apply list_fmap_ext. intros _ a _. apply buildTree_comment_at.
Qed.

Lemma filter_iff_elem_of {A} (P Q : A → Prop)
    `{!∀ x, Decision (P x), !∀ x, Decision (Q x)} (l : list A) :
  (∀ x, x ∈ l → P x ↔ Q x) → filter P l = filter Q l.
Proof.
  induction l as [|x l IH]; intros HPQ; [done|].
  rewrite !filter_cons, IH by (intros y Hy; apply HPQ; by right).
  destruct (decide (P x)) as [HP|HP], (decide (Q x)) as [HQ|HQ]; try done.
  - exfalso. apply HQ, HPQ; [by left | done].
  - exfalso. apply HP, HPQ; [by left | done].
Qed.

(** ** The tree of a flat comment set *)

Section flat.
Context (data : list Comment) (Hflat : flat_comment_set data).

Lemma flat_same_id i j (c d : Comment) :
  data !! i = Some c → data !! j = Some d → Row.id c = Row.id d → i = j.
Proof.
  intros Hi Hj Hid. apply (NoDup_lookup (ids data) i j (Row.id c)).
  - apply Hflat.
  - unfold ids. by rewrite list_lookup_fmap, Hi.
  - unfold ids. rewrite list_lookup_fmap, Hj. simpl. by rewrite Hid.
Qed.

Lemma flat_is_root (c : Comment) :
  c ∈ data → is_root c = true ↔ Row.parent_id c = None.
Proof.
  intros Hc. unfold is_root, truthy_opt.
  destruct (Row.parent_id c) as [p|] eqn:Hp; simpl; [|done].
  split; [|done]. intros Ht. exfalso.
  pose proof (parent_ids_uuid _ Hflat) as Hall.
  rewrite Forall_forall in Hall. specialize (Hall c Hc p Hp).
  unfold truthy in Ht. by rewrite bool_decide_eq_true_2 in Ht.
Qed.

Lemma flat_attaches a (c d : Comment) :
  data !! a = Some c → d ∈ data →
  attaches (index_of data) a d ↔ Row.parent_id d = Some (Row.id c).
Proof.
  intros Ha Hd. unfold attaches. split.
  - intros [_ Hp]. destruct (Row.parent_id d) as [p|]; simpl in Hp; [|done].
    apply index_of_Some in Hp as (c' & Ha' & <-). congruence.
  - intros Hp. rewrite Hp. simpl. split.
    + unfold truthy. apply bool_decide_eq_true_2.
      pose proof (ids_uuid _ Hflat) as Hall. rewrite Forall_forall in Hall.
      apply (Hall c). by apply list_elem_of_lookup_2 in Ha.
    + apply index_of_unique; [apply Hflat | done].
Qed.

Lemma flat_replies a i (c : Comment) :
  data !! a = Some c →
  Some i ∈ pushed (index_of data) a data ↔
  ∃ d : Comment, data !! i = Some d ∧ Row.parent_id d = Some (Row.id c).
Proof.
  intros Ha. unfold pushed. rewrite list_elem_of_fmap. split.
  - intros (d & Hi & [Hatt Hd]%list_elem_of_filter).
    symmetry in Hi. apply index_of_Some in Hi as (d' & Hi & Hid).
    apply list_elem_of_lookup in Hd as Hj. destruct Hj as [j Hj].
    assert (i = j) as -> by eauto using flat_same_id.
    exists d. split; [done|]. by apply (flat_attaches a).
  - intros (d & Hi & Hp). exists d. split.
    + symmetry. apply index_of_unique; [apply Hflat | done].
    + apply list_elem_of_filter. apply list_elem_of_lookup_2 in Hi as Hd.
      split; [|done]. by apply (flat_attaches a c).
Qed.

Lemma flat_children a (c : Comment) n :
  data !! a = Some c → nodes (buildTree data) !! a = Some n →
  children (buildTree data) n
  = Some <$> filter (λ d : Comment, Row.parent_id d = Some (Row.id c)) data.
Proof.
  intros Ha Hn. rewrite buildTree_nodes, Ha in Hn. injection Hn as <-.
  unfold children, pushed. simpl. rewrite <- list_fmap_compose.
  rewrite (filter_iff_elem_of _ (λ d : Comment, Row.parent_id d = Some (Row.id c))).
  - apply list_fmap_ext. intros _ d Hd%list_elem_of_lookup_2.
    apply list_elem_of_filter in Hd as [_ Hd].
    apply list_elem_of_lookup in Hd as [j Hj]. simpl.
    rewrite (index_of_unique _ j) by (done || apply Hflat). simpl.
    by rewrite buildTree_comment_at.
  - intros d Hd. by apply flat_attaches.
Qed.

Lemma flat_roots :
  root_comments (buildTree data)
  = Some <$> filter (λ c : Comment, Row.parent_id c = None) data.
Proof.
  rewrite buildTree_root_comments. f_equal.
  apply filter_iff_elem_of. intros c Hc. by apply flat_is_root.
Qed.
End flat.

Lemma StronglySorted_sublist {A} (R : relation A) (k l : list A) :
  k `sublist_of` l → StronglySorted R l → StronglySorted R k.
Proof.
  induction 1 as [|x k l Hkl IH|x k l Hkl IH]; intros Hl; [done|..].
  - apply StronglySorted_inv in Hl as [Hl Hx]. constructor; [by apply IH|].
    rewrite Forall_forall in Hx |- *. intros y Hy. apply Hx.
    by eapply elem_of_sublist.
  - apply StronglySorted_inv in Hl as [Hl _]. by apply IH.
Qed.

Ltac each_row tac :=
  unfold thread_with_orphan, thread_with_cycle, thread; simpl;
  repeat first [ apply Forall_nil_2 | apply Forall_cons_2; [tac|] ].

Ltac check_flat :=
  split;
  [ apply (bool_decide_unpack _); by vm_compute
  | each_row ltac:(unfold is_uuid_text; simpl; done)
  | each_row ltac:(intros p Hp; simpl in Hp; unfold is_uuid_text; by simplify_eq) ].

Lemma thread_flat : flat_comment_set thread.
Proof. check_flat. Qed.

Lemma thread_with_orphan_flat : flat_comment_set thread_with_orphan.
Proof. check_flat. Qed.

Lemma thread_with_cycle_flat : flat_comment_set thread_with_cycle.
Proof. check_flat. Qed.

(** The scenario of the specification: comment 2 hangs under comment 1,
    comments 1 and 3 are the roots, in that order. *)
Example buildTree_thread :
  buildTree thread
  = {| nodes := [ {| fields := row "c1" None "2025-09-06T13:00:00+00:00";
                     replies := [Some 1] |};
                  {| fields := row "c2" (Some "c1") "2025-09-06T13:05:00+00:00";
                     replies := [] |};
                  {| fields := row "c3" None "2025-09-06T13:10:00+00:00";
                     replies := [] |} ];
       roots := [0; 2] |}.
Proof. by vm_compute. Qed.

(** C1. For a flat comment set with unique ids, the root array of the tree
    built by [fetchComments] holds exactly the input comments whose
    [parent_id] is null, and the [replies] array of every node holds exactly
    the input comments whose [parent_id] is that node's [id]; every input
    comment has its node. *)
Theorem buildTree_children_and_roots (data : list Comment) :
  flat_comment_set data →
  let t := buildTree data in
  root_comments t = Some <$> filter (λ c : Comment, Row.parent_id c = None) data
  ∧ length (nodes t) = length data
  ∧ ∀ a n, nodes t !! a = Some n →
      data !! a = Some (fields n)
      ∧ children t n
        = Some <$> filter (λ d : Comment,
                             Row.parent_id d = Some (Row.id (fields n))) data.
Proof.
  intros Hflat t. split_and!.
  - by apply flat_roots.
  - apply buildTree_length.
  - intros a n Hn.
    assert (data !! a = Some (fields n)) as Ha.
    { rewrite <- buildTree_comment_at. unfold comment_at. fold t. by rewrite Hn. }
    split; [done|]. by apply (flat_children data Hflat a).
Qed.

Lemma buildTree_children_and_roots_witness :
  flat_comment_set thread
  ∧ root_comments (buildTree thread)
    = Some <$> filter (λ c : Comment, Row.parent_id c = None) thread.
Proof.
  split; [apply thread_flat|].
  apply (buildTree_children_and_roots thread thread_flat).
Defined.

(** C2. For a flat comment set sorted by ascending [created_at], the root
    array and every [replies] array list their comments in the order of the
    input, hence by ascending [created_at]. *)
Theorem buildTree_sibling_order (ts_le : relation string) (data : list Comment) :
  let by_created_at (c d : Comment) := ts_le (Row.created_at c) (Row.created_at d) in
  flat_comment_set data →
  StronglySorted by_created_at data →
  let t := buildTree data in
  (∃ rs, root_comments t = Some <$> rs
         ∧ rs `sublist_of` data ∧ StronglySorted by_created_at rs)
  ∧ ∀ n, n ∈ nodes t →
      ∃ cs, children t n = Some <$> cs
            ∧ cs `sublist_of` data ∧ StronglySorted by_created_at cs.
Proof.
  intros R Hflat Hsorted t. split.
  - eexists. split; [by apply flat_roots|].
    split; [apply sublist_filter|].
    eapply StronglySorted_sublist; [apply sublist_filter | done].
  - intros n [a Hn]%list_elem_of_lookup.
    assert (data !! a = Some (fields n)) as Ha.
    { rewrite <- buildTree_comment_at. unfold comment_at. fold t. by rewrite Hn. }
    eexists. split; [by apply (flat_children data Hflat a)|].
    split; [apply sublist_filter|].
    eapply StronglySorted_sublist; [apply sublist_filter | done].
Qed.

Lemma thread_sorted : StronglySorted created_le thread.
Proof.
  unfold thread.
  repeat first
    [ apply SSorted_nil
    | apply SSorted_cons
    | apply Forall_nil_2
    | apply Forall_cons_2; [by vm_compute|] ].
Qed.

Lemma buildTree_sibling_order_witness :
  (flat_comment_set thread ∧ StronglySorted created_le thread)
  ∧ ∃ rs, root_comments (buildTree thread) = Some <$> rs
          ∧ rs `sublist_of` thread ∧ StronglySorted created_le rs.
Proof.
  split; [split; [apply thread_flat | apply thread_sorted]|].
  apply (buildTree_sibling_order String.le thread thread_flat thread_sorted).
Defined.

(** C3. In a flat comment set, a comment whose [parent_id] is not null and
    is the [id] of no comment of the set is left out of the tree: its node is
    neither in the root array nor in any [replies] array.  The construction
    is a total function, so nothing is thrown. *)
Theorem buildTree_drops_orphan (data : list Comment) (i : addr) (c : Comment) (p : string) :
  flat_comment_set data →
  data !! i = Some c →
  Row.parent_id c = Some p →
  p ∉ ids data →
  let t := buildTree data in
  ((i ∉ roots t) ∧ (Some c ∉ root_comments t))
  ∧ ∀ n, n ∈ nodes t → (Some i ∉ replies n) ∧ (Some c ∉ children t n).
Proof.
  intros Hflat Hi Hp Hnone t. split; [split|].
  - unfold t. rewrite buildTree_roots, elem_of_positions.
    intros (j & d & Hj & Hroot & ->). simpl in Hi. simplify_eq.
    apply (flat_is_root data Hflat) in Hroot; [congruence|].
    by eapply list_elem_of_lookup_2.
  - unfold t. rewrite (flat_roots data Hflat), list_elem_of_fmap.
    intros (d & [= <-] & [Hd _]%list_elem_of_filter). congruence.
  - intros n [a Hn]%list_elem_of_lookup.
    assert (data !! a = Some (fields n)) as Ha.
    { rewrite <- buildTree_comment_at. unfold comment_at. fold t. by rewrite Hn. }
    assert (Row.id (fields n) ∈ ids data) as Hin.
    { unfold ids. apply list_elem_of_fmap. exists (fields n).
      split; [done|]. by eapply list_elem_of_lookup_2. }
    split.
    + unfold t in Hn. rewrite buildTree_nodes, Ha in Hn. injection Hn as <-. simpl.
      rewrite (flat_replies data Hflat a i (fields n)) by done.
      intros (d & Hd & Hpd). congruence.
    + rewrite (flat_children data Hflat a (fields n)) by done.
      rewrite list_elem_of_fmap.
      intros (d & [= <-] & [Hd _]%list_elem_of_filter). congruence.
Qed.

Lemma buildTree_drops_orphan_witness :
  (flat_comment_set thread_with_orphan
   ∧ thread_with_orphan !! 3 = Some (row "c4" (Some "c9") "2025-09-06T13:15:00+00:00")
   ∧ ("c9" ∉ ids thread_with_orphan))
  ∧ (3 ∉ roots (buildTree thread_with_orphan))
  ∧ ∀ n, n ∈ nodes (buildTree thread_with_orphan) → Some 3 ∉ replies n.
Proof.
  assert ("c9" ∉ ids thread_with_orphan) as Hnone.
  { apply (bool_decide_unpack _). by vm_compute. }
  split; [split_and!; [apply thread_with_orphan_flat | done | done]|].
  pose proof (buildTree_drops_orphan thread_with_orphan 3 _ "c9"
                thread_with_orphan_flat eq_refl eq_refl Hnone) as [[H1 _] H2].
  split; [done|]. intros n Hn. by apply H2.
Defined.

(** C10. In a flat comment set, a comment whose [parent_id] is its own [id]
    is not dropped: its node is pushed onto its own [replies] array, it is
    not in the root array, no other node lists it, and so it cannot be
    reached from the root array. *)
Theorem buildTree_self_parent (data : list Comment) (i : addr) (c : Comment) :
  flat_comment_set data →
  data !! i = Some c →
  Row.parent_id c = Some (Row.id c) →
  let t := buildTree data in
  (∃ n, nodes t !! i = Some n ∧ fields n = c ∧ Some i ∈ replies n)
  ∧ (i ∉ roots t)
  ∧ (∀ a n, nodes t !! a = Some n → Some i ∈ replies n → a = i)
  ∧ ¬ reachable t i.
Proof.
  intros Hflat Hi Hp t.
  assert (i ∉ roots t) as Hroot.
  { unfold t. rewrite buildTree_roots, elem_of_positions.
    intros (j & d & Hj & Hr & ->). simpl in Hi. simplify_eq.
    apply (flat_is_root data Hflat) in Hr; [congruence|].
    by eapply list_elem_of_lookup_2. }
  assert (∀ a n, nodes t !! a = Some n → Some i ∈ replies n → a = i) as Honly.
  { intros a n Hn Hin. unfold t in Hn. rewrite buildTree_nodes in Hn.
    destruct (data !! a) as [d|] eqn:Ha; [|done]. injection Hn as <-.
    simpl in Hin. apply (flat_replies data Hflat a i d Ha) in Hin as (c' & Hc' & Hpc').
    rewrite Hi in Hc'. injection Hc' as <-.
    rewrite Hp in Hpc'. injection Hpc' as Hid.
    symmetry. by eapply (flat_same_id data Hflat). }
  split_and!; [|done|done|].
  - eexists. unfold t. rewrite buildTree_nodes, Hi. simpl.
    split_and!; [done | done |]. simpl.
    apply (flat_replies data Hflat i i c Hi). by exists c.
  - assert (∀ a, reachable t a → a ≠ i) as Hne; [|by intros ?%Hne].
    induction 1 as [a Ha | q n a Hq IH Hn Ha]; intros ->; [done|].
    by apply IH, (Honly q n).
Qed.

Lemma buildTree_self_parent_witness :
  (flat_comment_set thread_with_cycle
   ∧ thread_with_cycle !! 3 = Some (row "c5" (Some "c5") "2025-09-06T13:20:00+00:00"))
  ∧ (∃ n, nodes (buildTree thread_with_cycle) !! 3 = Some n ∧ Some 3 ∈ replies n)
  ∧ (3 ∉ roots (buildTree thread_with_cycle))
  ∧ ¬ reachable (buildTree thread_with_cycle) 3.
Proof.
  split; [split; [apply thread_with_cycle_flat | done]|].
  pose proof (buildTree_self_parent thread_with_cycle 3 _
                thread_with_cycle_flat eq_refl eq_refl) as (Hn & Hr & _ & Hu).
  split_and!; [|done|done].
  destruct Hn as (n & Hn & _ & Hin). by exists n.
Defined.

(** The cycle, evaluated: node 3 lists itself and is not a root. *)
Example buildTree_thread_with_cycle :
  nodes (buildTree thread_with_cycle) !! 3
  = Some {| fields := row "c5" (Some "c5") "2025-09-06T13:20:00+00:00";
            replies := [Some 3] |}
  ∧ roots (buildTree thread_with_cycle) = [0; 2].
Proof. by vm_compute. Qed.

(** ** Outside the flat comment sets

    The truthiness tests and the last-write-wins map show on arrays the
    store cannot return.  An empty [parent_id] is falsy, so the comment is
    pushed on the root array; with two comments of one [id] the map holds
    the later copy, which is attached wherever the earlier one belongs. *)
Example buildTree_empty_parent :
  roots (buildTree thread_with_empty_parent) = [0; 2; 3].
Proof. by vm_compute. Qed.

Example buildTree_duplicate_id :
  replies <$> nodes (buildTree thread_with_duplicate) = [[Some 2]; []; []].
Proof. by vm_compute. Qed.

(** ** Running the client *)

Lemma writes_snoc j q :
  writes (j ++ [q]) = writes j ++ (if is_write q then [q] else []).
Proof.
  unfold writes. rewrite filter_app, filter_cons, filter_nil.
  destruct (is_write q); by simpl.
Qed.

Lemma send_inv q s :
  ∃ f, send q s
       = (inr f, {| world := {| db := db (world s); session := session (world s);
                                fates := tail (fates (world s));
                                journal := journal (world s) ++ [q];
                                ts_leb := ts_leb (world s) |};
                    hook := hook s; form := form s |})
       ∧ f = match fates (world s) with f :: _ => f | [] => Refused offline end.
Proof. unfold send. destruct (fates (world s)) as [|f rest]; simpl; eauto. Qed.

Lemma mutate_inv q run s :
  ∃ r s', mutate q run s = (inr r, s')
          ∧ hook s' = hook s ∧ form s' = form s
          ∧ session (world s') = session (world s)
          ∧ ts_leb (world s') = ts_leb (world s)
          ∧ fates (world s') = tail (fates (world s))
          ∧ journal (world s') = journal (world s) ++ [q]
          ∧ error r = match outcome run (world s) with inl e => Some e | inr _ => None end
          ∧ db (world s') = match outcome run (world s) with
                            | inl _ => db (world s)
                            | inr d => d
                            end.
Proof.
  unfold mutate, mbind, M_bind, mret, M_ret, get_world, set_db, outcome.
  destruct (send_inv q s) as (f & -> & Hf). simpl.
  destruct (fates (world s)) as [|[fresh now|e] rest]; subst f; simpl.
  - eauto 12.
  - unfold auth_uid. simpl. destruct (run _ _ _ _) as [e|d]; simpl; eauto 12.
  - eauto 12.
Qed.

Lemma comments_select_inv post s :
  ∃ r s', comments_select post s = (inr r, s')
          ∧ hook s' = hook s ∧ form s' = form s
          ∧ db (world s') = db (world s)
          ∧ session (world s') = session (world s)
          ∧ ts_leb (world s') = ts_leb (world s)
          ∧ fates (world s') = tail (fates (world s))
          ∧ journal (world s') = journal (world s) ++ [SelectComments post]
          ∧ (if head_served (world s)
             then r = {| data := Some (select_comments (ts_leb (world s))
                                                       (db (world s)) post);
                         error := None |}
             else ∃ e, r = failed e).
Proof.
  unfold comments_select, mbind, M_bind, mret, M_ret, get_world, head_served.
  destruct (send_inv (SelectComments post) s) as (f & -> & Hf). simpl.
  destruct (fates (world s)) as [|[u n|e] rest]; subst f; simpl;
    do 2 eexists; split_and!; try done; eauto.
Qed.

(** [fetchComments] never throws; it leaves the store, the session and the
    form alone, sends no write, and replaces the tree exactly when its
    query is served. *)
Lemma fetchComments_inv postId s :
  ∃ s', fetchComments postId s = (inr (), s')
        ∧ form s' = form s
        ∧ db (world s') = db (world s)
        ∧ session (world s') = session (world s)
        ∧ ts_leb (world s') = ts_leb (world s)
        ∧ writes (journal (world s')) = writes (journal (world s))
        ∧ match or_null postId with
          | None => s' = s
          | Some post =>
              journal (world s') = journal (world s) ++ [SelectComments post]
              ∧ fates (world s') = tail (fates (world s))
              ∧ Hook.loading (hook s') = false
              ∧ if head_served (world s)
                then Hook.comments (hook s')
                     = buildTree (select_comments (ts_leb (world s))
                                                  (db (world s)) post)
                     ∧ Hook.error (hook s') = Hook.error (hook s)
                else Hook.comments (hook s') = Hook.comments (hook s)
                     ∧ Hook.error (hook s') = Some "Failed to load comments"
          end.
Proof.
  unfold fetchComments. destruct (or_null postId) as [post|]; [|by eauto 10].
  unfold finally, try_catch, mbind, M_bind, setLoading, setComments, setError, throw.
  simpl.
  match goal with |- context [comments_select post ?s1] =>
    destruct (comments_select_inv post s1)
      as (r & s2 & -> & Hh & Hf & Hd & Hs & Ht & Hfa & Hj & Hr)
  end.
  simpl in *. unfold head_served in *. simpl in *.
  destruct (fates (world s)) as [|[u n|e] rest]; simpl in *.
  - destruct Hr as [e ->]. simpl. eexists. split; [done|]. simpl.
    rewrite Hj, writes_snoc. simpl. rewrite app_nil_r, Hh. simpl. by split_and!.
  - subst r. simpl. eexists. split; [done|]. simpl.
    rewrite Hj, writes_snoc. simpl. rewrite app_nil_r, Hh. simpl. by split_and!.
  - destruct Hr as [e' ->]. simpl. eexists. split; [done|]. simpl.
    rewrite Hj, writes_snoc. simpl. rewrite app_nil_r, Hh. simpl. by split_and!.
Qed.

(** The tree after a fetch is the old one, or the one of the rows now in
    the store. *)
Lemma fetchComments_comments postId s s' :
  fetchComments postId s = (inr (), s') →
  Hook.comments (hook s') = Hook.comments (hook s)
  ∨ ∃ post, or_null postId = Some post
            ∧ Hook.comments (hook s')
              = buildTree (select_comments (ts_leb (world s')) (db (world s')) post).
Proof.
  intros Hrun. destruct (fetchComments_inv postId s) as (s1 & Hs1 & _ & Hd & _ & Ht & _ & H).
  rewrite Hs1 in Hrun. injection Hrun as <-.
  destruct (or_null postId) as [post|]; [|left; by subst].
  destruct H as (_ & _ & _ & H). destruct (head_served (world s)).
  - right. exists post. split; [done|]. rewrite Hd, Ht. apply H.
  - left. apply H.
Qed.

(** [catch (error) { console.error(..); throw error }] changes nothing. *)
Lemma try_catch_rethrow {A} (body : M A) s :
  try_catch body (λ e, throw e) s = body s.
Proof. unfold try_catch, throw. by destruct (body s) as [[e|x] s']. Qed.

Lemma createComment_unfold postId text parentId s :
  createComment postId text parentId s
  = match or_null postId with
    | None => (inl (Error "No post ID provided"), s)
    | Some post =>
        match session (world s) with
        | None => (inl (Error "Not authenticated"), s)
        | Some u =>
            match comments_insert post (AuthUser.id u) (or_null parentId) text s with
            | (inl e, s1) => (inl e, s1)
            | (inr r, s1) =>
                match error r with
                | Some e => (inl (Rejected e), s1)
                | None => fetchComments postId s1
                end
            end
        end
    end.
Proof.
  unfold createComment. destruct (or_null postId) as [post|]; [|done].
  rewrite try_catch_rethrow.
  unfold mbind, M_bind, getUser, get_world, mret, M_ret, throw. simpl.
  destruct (session (world s)) as [u|]; [|done].
  destruct (comments_insert _ _ _ _ s) as [[e|r] s1]; [done|].
  by destruct (error r).
Qed.

Lemma deleteComment_unfold postId commentId s :
  deleteComment postId commentId s
  = match comments_delete commentId s with
    | (inl e, s1) => (inl e, s1)
    | (inr r, s1) =>
        match error r with
        | Some e => (inl (Rejected e), s1)
        | None => fetchComments postId s1
        end
    end.
Proof.
  unfold deleteComment. rewrite try_catch_rethrow.
  unfold mbind, M_bind, throw.
  destruct (comments_delete commentId s) as [[e|r] s1]; [done|].
  by destruct (error r).
Qed.

Lemma toggleCommentLike_unfold postId commentId s :
  toggleCommentLike postId commentId s
  = match session (world s) with
    | None => (inl (Error "Not authenticated"), s)
    | Some u =>
        match comment_likes_select_single commentId (AuthUser.id u) s with
        | (inl e, s1) => (inl e, s1)
        | (inr existingLike, s1) =>
            match
              match data existingLike with
              | Some likeId => comment_likes_delete likeId s1
              | None => comment_likes_insert commentId (AuthUser.id u) s1
              end
            with
            | (inl e, s2) => (inl e, s2)
            | (inr _, s2) => fetchComments postId s2
            end
        end
    end.
Proof.
  unfold toggleCommentLike. rewrite try_catch_rethrow.
  unfold mbind, M_bind, getUser, get_world, mret, M_ret, throw. simpl.
  destruct (session (world s)) as [u|]; [|done].
  destruct (comment_likes_select_single _ _ s) as [[e|r] s1]; [done|].
  destruct (data r) as [likeId|].
  - by destruct (comment_likes_delete likeId s1) as [[e|r'] s2].
  - by destruct (comment_likes_insert _ _ s1) as [[e|r'] s2].
Qed.

Lemma comment_likes_select_single_inv commentId userId s :
  ∃ r s', comment_likes_select_single commentId userId s = (inr r, s')
          ∧ hook s' = hook s ∧ form s' = form s
          ∧ db (world s') = db (world s)
          ∧ session (world s') = session (world s)
          ∧ ts_leb (world s') = ts_leb (world s)
          ∧ fates (world s') = tail (fates (world s))
          ∧ journal (world s') = journal (world s) ++ [SelectLike commentId userId]
          ∧ (head_served (world s) = true →
             data r = match single (select_likes (db (world s)) commentId userId) with
                      | inr l => Some (Like.id l)
                      | inl _ => None
                      end).
Proof.
  unfold comment_likes_select_single, mbind, M_bind, mret, M_ret, get_world, head_served.
  destruct (send_inv (SelectLike commentId userId) s) as (f & -> & Hf). simpl.
  destruct (fates (world s)) as [|[u n|e] rest]; subst f; simpl;
    do 2 eexists; split_and!; try done.
  intros _. by destruct (single _).
Qed.

(** The requests of the two like writes, as [mutate] sees them. *)
Lemma toggleCommentLike_inv postId commentId u s :
  session (world s) = Some u →
  ∃ r1 s1 q run r2 s2 s3,
    comment_likes_select_single commentId (AuthUser.id u) s = (inr r1, s1)
    ∧ mutate q run s1 = (inr r2, s2)
    ∧ fetchComments postId s2 = (inr (), s3)
    ∧ toggleCommentLike postId commentId s = (inr (), s3)
    ∧ match data r1 with
      | Some likeId =>
          q = DeleteLikes likeId
          ∧ run = (λ uid _ now d, inr (delete_likes uid now likeId d))
      | None =>
          q = InsertLike commentId (AuthUser.id u)
          ∧ run = (λ uid fresh now d,
                     insert_like uid fresh now commentId (AuthUser.id u) d)
      end.
Proof.
  intros Hu. rewrite toggleCommentLike_unfold, Hu.
  destruct (comment_likes_select_single_inv commentId (AuthUser.id u) s)
    as (r1 & s1 & Hsel & _).
  rewrite Hsel. exists r1, s1.
  destruct (data r1) as [likeId|].
  - unfold comment_likes_delete.
    destruct (mutate_inv (DeleteLikes likeId)
                (λ uid _ now d, inr (delete_likes uid now likeId d)) s1)
      as (r2 & s2 & Hmut & _).
    rewrite Hmut. destruct (fetchComments_inv postId s2) as (s3 & Hfetch & _).
    rewrite Hfetch. by eauto 12.
  - unfold comment_likes_insert.
    destruct (mutate_inv (InsertLike commentId (AuthUser.id u))
                (λ uid fresh now d,
                   insert_like uid fresh now commentId (AuthUser.id u) d) s1)
      as (r2 & s2 & Hmut & _).
    rewrite Hmut. destruct (fetchComments_inv postId s2) as (s3 & Hfetch & _).
    rewrite Hfetch. by eauto 12.
Qed.

(** For a signed-in user [toggleCommentLike] resolves, whatever the store
    answered. *)
Lemma toggleCommentLike_resolves postId commentId u s :
  session (world s) = Some u →
  (toggleCommentLike postId commentId s).1 = inr ().
Proof.
  intros Hu.
  destruct (toggleCommentLike_inv postId commentId u s Hu)
    as (? & ? & ? & ? & ? & ? & s3 & _ & _ & _ & -> & _).
  done.
Qed.

(** ** Errors of the mutations *)

(** C5 as stated fails: on a hook without a post id, [createComment]
    throws "No post ID provided" before it looks for the user, so a
    signed-out caller does not get the authentication error. *)
Lemma createComment_without_post_counterexample :
  session (world signed_out) = None
  ∧ (createComment None "hello" None signed_out).1
    = inl (Error "No post ID provided")
  ∧ (createComment None "hello" None signed_out).1
    ≠ inl (Error "Not authenticated").
Proof. by split_and!. Qed.

(** C5, amended.  While nobody is signed in, [toggleCommentLike] always,
    and [createComment] on a hook that has a post id, throw the error "Not
    authenticated"; [createComment] on a hook without a post id throws "No
    post ID provided".  In every case the state is the one before the call:
    no request was sent to the store. *)
Theorem unauthenticated_mutation_fails (postId : option string) (s : App) :
  session (world s) = None →
  (∀ commentId,
     toggleCommentLike postId commentId s = (inl (Error "Not authenticated"), s))
  ∧ (∀ text parentId,
       createComment postId text parentId s
       = (inl (Error (if truthy_opt postId then "Not authenticated"
                      else "No post ID provided")), s)).
Proof.
  intros Hnone. split.
  - intros commentId. by rewrite toggleCommentLike_unfold, Hnone.
  - intros text parentId. rewrite createComment_unfold. unfold or_null.
    destruct (truthy_opt postId) eqn:Ht.
    + destruct postId as [post|]; [|done]. by rewrite Hnone.
    + done.
Qed.

Lemma unauthenticated_mutation_fails_witness :
  session (world signed_out) = None
  ∧ toggleCommentLike (Some "post-1") "c1" signed_out
    = (inl (Error "Not authenticated"), signed_out)
  ∧ createComment (Some "post-1") "hello" None signed_out
    = (inl (Error "Not authenticated"), signed_out).
Proof.
  split; [done|].
  destruct (unauthenticated_mutation_fails (Some "post-1") signed_out eq_refl)
    as [Htoggle Hcreate].
  split; [apply Htoggle | apply (Hcreate "hello" None)].
Defined.

(** C4 as stated fails: [createComment] does not look at its text.  With
    the empty string it sends the insert and resolves. *)
Lemma createComment_blank_counterexample :
  trim "" = ""
  ∧ (createComment (Some "post-1") "" None alice_online).1 = inr ()
  ∧ writes (journal (world (createComment (Some "post-1") "" None alice_online).2))
    = [InsertComment "post-1" "alice" None ""].
Proof. by vm_compute. Qed.

Lemma createComment_sends_insert hookPost post u text parentId s :
  or_null hookPost = Some post →
  session (world s) = Some u →
  InsertComment post (AuthUser.id u) (or_null parentId) text
  ∈ journal (world (createComment hookPost text parentId s).2).
Proof.
  intros Hpost Hu. rewrite createComment_unfold, Hpost, Hu. unfold comments_insert.
  match goal with |- context [mutate ?q ?run s] =>
    destruct (mutate_inv q run s) as (r & s1 & -> & _ & _ & _ & _ & _ & Hj & _)
  end.
  assert (InsertComment post (AuthUser.id u) (or_null parentId) text
          ∈ journal (world s1)) as Hin.
  { rewrite Hj. apply elem_of_app. right. by apply list_elem_of_singleton. }
  destruct (error r); [done|].
  destruct (fetchComments_inv hookPost s1) as (s2 & -> & _ & _ & _ & _ & _ & H).
  rewrite Hpost in H. destruct H as [Hj2 _]. simpl. rewrite Hj2.
  apply elem_of_app. by left.
Qed.

(** C4, amended.  Text that is empty after trimming is stopped by the
    submit handlers of [CommentSection]: they return without calling
    [createComment], nothing is thrown and the state, the journal of
    requests included, is the one before the call.  [createComment] itself
    sends the insert with whatever text it is given. *)
Theorem blank_text_stops_in_submit_handlers (postId : string)
    (user : option AuthUser.t) (s : App) :
  (trim (newComment (form s)) = "" → handleSubmitComment postId user s = (inr (), s))
  ∧ (∀ parentId, trim (replyContent (form s)) = "" →
       handleSubmitReply postId user parentId s = (inr (), s))
  ∧ (∀ hookPost post u text parentId,
       or_null hookPost = Some post → session (world s) = Some u →
       InsertComment post (AuthUser.id u) (or_null parentId) text
       ∈ journal (world (createComment hookPost text parentId s).2)).
Proof.
  split_and!.
  - intros Hblank. unfold handleSubmitComment, mbind, M_bind, get_form. simpl.
    by rewrite Hblank.
  - intros parentId Hblank. unfold handleSubmitReply, mbind, M_bind, get_form. simpl.
    by rewrite Hblank.
  - intros. by apply createComment_sends_insert.
Qed.

Lemma blank_text_stops_in_submit_handlers_witness :
  trim (newComment (form blank_draft)) = ""
  ∧ handleSubmitComment "post-1" (Some alice) blank_draft = (inr (), blank_draft).
Proof.
  assert (trim (newComment (form blank_draft)) = "") as Hblank by (by vm_compute).
  split; [done|].
  by apply (blank_text_stops_in_submit_handlers "post-1" (Some alice) blank_draft).
Defined.

(** C7, at a failing input.  Bob toggles his like on a comment that is no
    longer in the store: the insert is rejected (foreign key), the response
    carries the error, and [toggleCommentLike] drops it, refetches and
    resolves.  Nothing is thrown to the caller. *)
Theorem toggleCommentLike_drops_rejection :
  (comment_likes_insert "c9" "bob" bob_after_lookup).1
  = inr (failed foreign_key_violation)
  ∧ (toggleCommentLike (Some "post-1") "c9" bob_online).1 = inr ()
  ∧ journal (world (toggleCommentLike (Some "post-1") "c9" bob_online).2)
    = [SelectLike "c9" "bob"; InsertLike "c9" "bob"; SelectComments "post-1"]
  ∧ comment_likes_tbl (db (world (toggleCommentLike (Some "post-1") "c9" bob_online).2))
    = [].
Proof. by vm_compute. Qed.

(** The sibling mutations do inspect the response: the same kind of
    rejection makes [createComment] throw. *)
Example createComment_throws_rejection :
  (createComment (Some "post-1") "hello" (Some "c9") alice_online).1
  = inl (Rejected foreign_key_violation).
Proof. by vm_compute. Qed.

(** ** Failed mutations and the tree *)

Lemma perform_failure_keeps_hook postId m s e s' :
  perform postId m s = (inl e, s') → hook s' = hook s.
Proof.
  destruct m as [text parentId|commentId|commentId]; simpl.
  - rewrite createComment_unfold.
    destruct (or_null postId) as [post|]; [|by intros [= _ <-]].
    destruct (session (world s)) as [u|]; [|by intros [= _ <-]].
    unfold comments_insert.
    match goal with |- context [mutate ?q ?run s] =>
      destruct (mutate_inv q run s) as (r & s1 & -> & Hh & _)
    end.
    destruct (error r); [by intros [= _ <-]|].
    destruct (fetchComments_inv postId s1) as (s2 & -> & _). done.
  - rewrite deleteComment_unfold. unfold comments_delete.
    match goal with |- context [mutate ?q ?run s] =>
      destruct (mutate_inv q run s) as (r & s1 & -> & Hh & _)
    end.
    destruct (error r); [by intros [= _ <-]|].
    destruct (fetchComments_inv postId s1) as (s2 & -> & _). done.
  - destruct (session (world s)) as [u|] eqn:Hu.
    + intros Hrun. pose proof (toggleCommentLike_resolves postId commentId u s Hu) as H.
      by rewrite Hrun in H.
    + rewrite toggleCommentLike_unfold, Hu. by intros [= _ <-].
Qed.

Lemma perform_comments postId m s r s' :
  perform postId m s = (r, s') →
  Hook.comments (hook s') = Hook.comments (hook s)
  ∨ r = inr ()
    ∧ ∃ post, or_null postId = Some post
              ∧ Hook.comments (hook s')
                = buildTree (select_comments (ts_leb (world s')) (db (world s')) post).
Proof.
  assert (∀ s1, hook s1 = hook s → fetchComments postId s1 = (r, s') →
    Hook.comments (hook s') = Hook.comments (hook s)
    ∨ r = inr ()
      ∧ ∃ post, or_null postId = Some post
                ∧ Hook.comments (hook s')
                  = buildTree (select_comments (ts_leb (world s')) (db (world s')) post))
    as Hfetch.
  { intros s1 Hh Hrun.
    destruct (fetchComments_inv postId s1) as (s2 & Hs2 & _).
    rewrite Hs2 in Hrun. injection Hrun as <- <-.
    apply fetchComments_comments in Hs2 as [Hsame|Hnew].
    - left. by rewrite Hsame, Hh.
    - right. by split. }
  destruct m as [text parentId|commentId|commentId]; simpl.
  - rewrite createComment_unfold.
    destruct (or_null postId) as [post|] eqn:Hpost; [|intros [= _ <-]; by left].
    destruct (session (world s)) as [u|]; [|intros [= _ <-]; by left].
    unfold comments_insert.
    match goal with |- context [mutate ?q ?run s] =>
      destruct (mutate_inv q run s) as (r1 & s1 & -> & Hh & _)
    end.
    destruct (error r1); [intros [= _ <-]; left; by rewrite Hh|].
    by apply Hfetch.
  - rewrite deleteComment_unfold. unfold comments_delete.
    match goal with |- context [mutate ?q ?run s] =>
      destruct (mutate_inv q run s) as (r1 & s1 & -> & Hh & _)
    end.
    destruct (error r1); [intros [= _ <-]; left; by rewrite Hh|].
    by apply Hfetch.
  - destruct (session (world s)) as [u|] eqn:Hu.
    + destruct (toggleCommentLike_inv postId commentId u s Hu)
        as (r1 & s1 & q & run & r2 & s2 & s3 & Hsel & Hmut & Hf & -> & _).
      intros [= <- <-]. apply (Hfetch s2); [|done].
      destruct (comment_likes_select_single_inv commentId (AuthUser.id u) s)
        as (? & ? & Hsel' & Hh1 & _).
      rewrite Hsel in Hsel'. injection Hsel' as <- <-.
      destruct (mutate_inv q run s1) as (? & ? & Hmut' & Hh2 & _).
      rewrite Hmut in Hmut'. injection Hmut' as <- <-.
      by rewrite Hh2, Hh1.
    + rewrite toggleCommentLike_unfold, Hu. intros [= _ <-]. by left.
Qed.

(** C8. When [createComment], [deleteComment] or [toggleCommentLike]
    throws, the state of the hook, [comments] included, is the one before
    the call.  Whatever the outcome, [comments] is either untouched or the
    tree built from the rows the store holds after a mutation that
    resolved: nothing else ever replaces it. *)
Theorem failed_mutation_keeps_comments (postId : option string) (m : Mutation)
    (s : App) (r : Thrown + ()) (s' : App) :
  perform postId m s = (r, s') →
  (∀ e, r = inl e → hook s' = hook s)
  ∧ (Hook.comments (hook s') ≠ Hook.comments (hook s) →
     r = inr ()
     ∧ ∃ post, or_null postId = Some post
               ∧ Hook.comments (hook s')
                 = buildTree (select_comments (ts_leb (world s')) (db (world s')) post)).
Proof.
  intros Hrun. split.
  - intros e ->. by eapply perform_failure_keeps_hook.
  - intros Hne. by destruct (perform_comments postId m s r s' Hrun).
Qed.

Lemma failed_mutation_keeps_comments_witness :
  perform (Some "post-1") (DeleteComment "c1") alice_offline
  = (inl (Rejected offline), (perform (Some "post-1") (DeleteComment "c1") alice_offline).2)
  ∧ hook (perform (Some "post-1") (DeleteComment "c1") alice_offline).2
    = hook alice_offline.
Proof.
  assert (perform (Some "post-1") (DeleteComment "c1") alice_offline
          = (inl (Rejected offline),
             (perform (Some "post-1") (DeleteComment "c1") alice_offline).2))
    as Hrun by (by vm_compute).
  split; [done|].
  by apply (proj1 (failed_mutation_keeps_comments _ _ _ _ _ Hrun) (Rejected offline)).
Defined.

(** ** Deleting a comment *)

(** The cascade stops on a table that no deleted row is the parent of: what
    it keeps was there, names no row of [gone] as parent, and names no row it
    dropped as parent.  [length tbl] rounds are enough for that. *)
Lemma cascade_closed fuel gone tbl :
  length tbl ≤ fuel →
  (∀ r, r ∈ cascade fuel gone tbl → r ∈ tbl ∧ ¬ child_of gone r)
  ∧ (∀ x r, x ∈ tbl → x ∉ cascade fuel gone tbl → r ∈ cascade fuel gone tbl →
       Row.parent_id r ≠ Some (Row.id x)).
Proof.
  revert gone tbl. induction fuel as [|fuel IH]; intros gone tbl Hlen.
  - destruct tbl; [|simpl in Hlen; lia]. simpl.
    split; intros; by exfalso; eapply not_elem_of_nil.
  - simpl. destruct (filter (child_of gone) tbl) as [|v victims] eqn:Hv.
    + split; [|by intros x r Hx Hnx].
      intros r Hr. split; [done|]. intros Hchild.
      assert (r ∈ filter (child_of gone) tbl) as Hin
        by (by apply list_elem_of_filter).
      rewrite Hv in Hin. by eapply not_elem_of_nil.
    + assert (length (filter (λ r, ¬ child_of gone r) tbl) ≤ fuel) as Hshort.
      { pose proof (filter_app_complement (child_of gone) tbl) as Hperm.
        apply Permutation_length in Hperm.
        rewrite length_app, Hv in Hperm. simpl in Hperm. lia. }
      destruct (IH (Row.id <$> v :: victims) _ Hshort) as [Hkept Hdropped].
      split.
      * intros r Hr. apply Hkept in Hr as [Hr _].
        by apply list_elem_of_filter in Hr as [? ?].
      * intros x r Hx Hnx Hr Hp.
        destruct (decide (child_of gone x)) as [Hcx|Hcx].
        -- apply Hkept in Hr as [_ Hr]. apply Hr. exists (Row.id x).
           split; [done|]. apply list_elem_of_fmap. exists x. split; [done|].
           rewrite <- Hv. by apply list_elem_of_filter.
        -- eapply (Hdropped x r); try done. by apply list_elem_of_filter.
Qed.

(** More fuel than the length of the table changes nothing. *)
Lemma cascade_fuel fuel gone tbl :
  length tbl ≤ fuel → cascade fuel gone tbl = cascade (length tbl) gone tbl.
Proof.
  revert gone tbl. induction (lt_wf fuel) as [fuel _ IH]. intros gone tbl Hlen.
  destruct tbl as [|r0 tbl0]; [by destruct fuel|].
  destruct fuel as [|fuel]; [simpl in Hlen; lia|].
  set (tbl := r0 :: tbl0) in *.
  change (length tbl) with (S (length tbl0)). simpl.
  destruct (filter (child_of gone) tbl) as [|v victims] eqn:Hv; [done|].
  assert (length (filter (λ r, ¬ child_of gone r) tbl) ≤ length tbl0) as Hshort.
  { pose proof (filter_app_complement (child_of gone) tbl) as Hperm.
    apply Permutation_length in Hperm.
    rewrite length_app, Hv in Hperm. simpl in Hperm. subst tbl. simpl in Hperm. lia. }
  simpl in Hlen.
  rewrite (IH fuel) by lia. rewrite (IH (length tbl0)) by lia. done.
Qed.

Section delete_comments.
Context (uid : option string) (commentId : string) (s : Store).

Local Abbreviation tbl := (comments_tbl s).
Local Abbreviation kept := (comments_tbl (delete_comments uid commentId s)).

Lemma delete_comments_kept r : r ∈ kept → r ∈ tbl.
Proof.
  unfold delete_comments. simpl. intros Hr.
  eapply cascade_closed in Hr as [Hr _]; [|apply length_filter].
  by apply list_elem_of_filter in Hr as [_ ?].
Qed.

Lemma delete_comments_target x :
  Row.id x = commentId → may_delete_comment uid x → x ∉ kept.
Proof.
  unfold delete_comments. simpl. intros Hid Hown Hx.
  eapply cascade_closed in Hx as [Hx _]; [|apply length_filter].
  apply list_elem_of_filter in Hx as [Hx _]. by apply Hx.
Qed.

Lemma delete_comments_closed x r :
  x ∈ tbl → x ∉ kept → r ∈ kept → Row.parent_id r ≠ Some (Row.id x).
Proof.
  unfold delete_comments. simpl. intros Hx Hnx Hr Hp.
  set (hit := λ r : Row.t, Row.id r = commentId ∧ may_delete_comment uid r) in *.
  destruct (cascade_closed (length tbl) (Row.id <$> filter hit tbl)
              (filter (λ r, ¬ hit r) tbl) (length_filter _ _)) as [Hkept Hdropped].
  destruct (decide (hit x)) as [Hhit|Hhit].
  - apply Hkept in Hr as [_ Hr]. apply Hr. exists (Row.id x). split; [done|].
    apply list_elem_of_fmap. exists x. split; [done|]. by apply list_elem_of_filter.
  - eapply (Hdropped x r); try done. by apply list_elem_of_filter.
Qed.

(** The whole subtree goes with the comment. *)
Lemma delete_comments_subtree c d :
  c ∈ tbl → c ∉ kept → descends tbl c d → d ∉ kept.
Proof.
  intros Hc Hnc. induction 1 as [d Hd Hp | e d He IH Hd Hp]; intros Hkept.
  - by eapply (delete_comments_closed c d).
  - eapply (delete_comments_closed e d); try done.
    clear IH Hp Hkept. by destruct He.
Qed.
End delete_comments.

Lemma select_comments_columns leb s post (x : Comment) :
  x ∈ select_comments leb s post →
  columns x ∈ comments_tbl s ∧ Row.post_id x = post.
Proof.
  unfold select_comments. intros (r & -> & Hr)%list_elem_of_fmap. simpl.
  rewrite merge_sort_Permutation in Hr.
  by apply list_elem_of_filter in Hr as [? ?].
Qed.

Lemma deleteComment_inv postId commentId s :
  head_served (world s) = true →
  ∃ s1 s',
    deleteComment postId commentId s = (inr (), s')
    ∧ fetchComments postId s1 = (inr (), s')
    ∧ db (world s') = delete_comments (auth_uid (world s)) commentId (db (world s))
    ∧ ts_leb (world s') = ts_leb (world s)
    ∧ writes (journal (world s'))
      = writes (journal (world s)) ++ [DeleteComments commentId].
Proof.
  intros Hserved. rewrite deleteComment_unfold. unfold comments_delete.
  match goal with |- context [mutate ?q ?run s] =>
    destruct (mutate_inv q run s)
      as (r & s1 & -> & _ & _ & _ & Ht & _ & Hj & He & Hd)
  end.
  unfold outcome, head_served in *.
  destruct (fates (world s)) as [|[fresh now|e] rest]; try done.
  rewrite He.
  destruct (fetchComments_inv postId s1) as (s' & Hs' & _ & Hd' & _ & Ht' & Hw & _).
  exists s1, s'. split_and!; try done.
  - by rewrite Hd', Hd.
  - by rewrite Ht', Ht.
  - by rewrite Hw, Hj, writes_snoc.
Qed.

(** C9. When the owner of comment [c] deletes it and the store serves the
    request, the call resolves, [c] and every comment whose [parent_id]
    chain leads to [c] are gone from the table, hence from the result of any
    later select, and the only write the client sent is the delete of [c]:
    the rest is the cascade of the foreign key. *)
Theorem deleteComment_cascades (postId : option string) (s : App)
    (c : Row.t) (u : AuthUser.t) :
  c ∈ comments_tbl (db (world s)) →
  session (world s) = Some u →
  AuthUser.id u = Row.author_id c →
  head_served (world s) = true →
  let r := (deleteComment postId (Row.id c) s).1 in
  let s' := (deleteComment postId (Row.id c) s).2 in
  r = inr ()
  ∧ writes (journal (world s'))
    = writes (journal (world s)) ++ [DeleteComments (Row.id c)]
  ∧ ∀ d, d = c ∨ descends (comments_tbl (db (world s))) c d →
      (d ∉ comments_tbl (db (world s')))
      ∧ ∀ post (x : Comment),
          x ∈ select_comments (ts_leb (world s')) (db (world s')) post →
          columns x ≠ d.
Proof.
  intros Hc Hu Hown Hserved r s'. subst r s'.
  destruct (deleteComment_inv postId (Row.id c) s Hserved)
    as (s1 & s' & -> & _ & Hd & _ & Hw).
  simpl. split_and!; [done | done |].
  assert (c ∉ comments_tbl (db (world s'))) as Hgone.
  { rewrite Hd. apply delete_comments_target; [done|].
    unfold may_delete_comment, auth_uid. rewrite Hu. simpl. by rewrite Hown. }
  assert (∀ d, d = c ∨ descends (comments_tbl (db (world s))) c d →
               d ∉ comments_tbl (db (world s'))) as Hall.
  { intros d [->|Hdesc]; [done|].
    rewrite Hd. eapply delete_comments_subtree; [done | by rewrite <- Hd | done]. }
  intros d Hd'. split; [by apply Hall|].
  intros post x Hx <-. apply select_comments_columns in Hx as [Hx _].
  by apply (Hall (columns x)).
Qed.

Lemma deleteComment_cascades_witness :
  (Row.mk "c1" "post-1" "alice" None "first" 0
          "2025-09-06T13:00:00+00:00" "2025-09-06T13:00:00+00:00"
   ∈ comments_tbl (db (world alice_online))
   ∧ session (world alice_online) = Some alice
   ∧ head_served (world alice_online) = true)
  ∧ (deleteComment (Some "post-1") "c1" alice_online).1 = inr ()
  ∧ writes (journal (world (deleteComment (Some "post-1") "c1" alice_online).2))
    = [DeleteComments "c1"].
Proof.
  assert (Row.mk "c1" "post-1" "alice" None "first" 0
            "2025-09-06T13:00:00+00:00" "2025-09-06T13:00:00+00:00"
          ∈ comments_tbl (db (world alice_online))) as Hc by (by left).
  split; [by split_and!|].
  destruct (deleteComment_cascades (Some "post-1") alice_online _ alice
              Hc eq_refl eq_refl eq_refl) as (Hr & Hw & _).
  split; [exact Hr | exact Hw].
Defined.

(** Someone else's comment: the policy hides it from the delete, the store
    reports no error, and the call resolves with the table as it was. *)
Example deleteComment_not_owner :
  (deleteComment (Some "post-1") "c1" bob_online).1 = inr ()
  ∧ comments_tbl (db (world (deleteComment (Some "post-1") "c1" bob_online).2))
    = comments_tbl demo_store.
Proof. by vm_compute. Qed.

(** The scenario of the specification: deleting comment 1 also removes its
    reply, comment 2; the refetch shows comment 3 alone. *)
Example deleteComment_scenario :
  Row.id <$> comments_tbl (db (world (deleteComment (Some "post-1") "c1" alice_online).2))
  = ["c3"]
  ∧ root_comments (Hook.comments (hook (deleteComment (Some "post-1") "c1" alice_online).2))
    = [Some {| columns := Row.mk "c3" "post-1" "bob" None "second" 0
                            "2025-09-06T13:10:00+00:00" "2025-09-06T13:10:00+00:00";
               profiles := Some (mkProfile None "bob@example.org" None) |}].
Proof. by vm_compute. Qed.

(** ** Toggling a like *)

(** The trigger's update skips the comments the caller did not write. *)
Lemma update_comment_likes_count_others uid now d commentId tbl r :
  ¬ may_update_comment uid r →
  r ∈ update_comment_likes_count uid now d commentId tbl ↔ r ∈ tbl.
Proof.
  intros Hr. unfold update_comment_likes_count. rewrite list_elem_of_fmap. split.
  - intros (r0 & -> & Hr0).
    destruct (decide (Row.id r0 = commentId ∧ may_update_comment uid r0))
      as [Hhit|Hhit]; [|done].
    exfalso. apply Hr. unfold may_update_comment in *. simpl. apply Hhit.
  - intros Hin. exists r. split; [|done].
    destruct (decide (Row.id r = commentId ∧ may_update_comment uid r))
      as [[_ Hhit]|_]; done.
Qed.

Lemma insert_like_others uid fresh now commentId userId s s' r :
  insert_like uid fresh now commentId userId s = inr s' →
  ¬ may_update_comment uid r →
  r ∈ comments_tbl s' ↔ r ∈ comments_tbl s.
Proof.
  unfold insert_like. intros Hrun Hr.
  repeat case_match; simplify_eq. simpl.
  by apply update_comment_likes_count_others.
Qed.

Lemma delete_likes_others uid now likeId s r :
  ¬ may_update_comment uid r →
  r ∈ comments_tbl (delete_likes uid now likeId s) ↔ r ∈ comments_tbl s.
Proof.
  intros Hr. unfold delete_likes. simpl.
  generalize (filter (λ l, Like.id l = likeId ∧ may_delete_like uid l)
                     (comment_likes_tbl s)).
  generalize (comments_tbl s).
  intros tbl victims. revert tbl.
  induction victims as [|l victims IH]; intros tbl; simpl; [done|].
  rewrite IH. by apply update_comment_likes_count_others.
Qed.

(** Whoever toggles a like, the rows of the comments written by others
    stay as they are, [likes_count] included. *)
Lemma toggleCommentLike_leaves_others postId commentId u s r :
  session (world s) = Some u →
  Row.author_id r ≠ AuthUser.id u →
  r ∈ comments_tbl (db (world (toggleCommentLike postId commentId s).2))
  ↔ r ∈ comments_tbl (db (world s)).
Proof.
  intros Hu Hr.
  destruct (toggleCommentLike_inv postId commentId u s Hu)
    as (r1 & s1 & q & run & r2 & s2 & s3 & Hsel & Hmut & Hfetch & -> & Hq).
  simpl.
  destruct (comment_likes_select_single_inv commentId (AuthUser.id u) s)
    as (? & ? & Hsel' & _ & _ & Hd1 & Hs1 & _).
  rewrite Hsel in Hsel'. injection Hsel' as <- <-.
  destruct (mutate_inv q run s1) as (? & ? & Hmut' & _ & _ & _ & _ & _ & _ & _ & Hd2).
  rewrite Hmut in Hmut'. injection Hmut' as <- <-.
  destruct (fetchComments_inv postId s2) as (? & Hfetch' & _ & Hd3 & _).
  rewrite Hfetch in Hfetch'. injection Hfetch' as <-.
  rewrite Hd3, Hd2, <- Hd1.
  assert (¬ may_update_comment (auth_uid (world s1)) r) as Hno.
  { unfold may_update_comment, auth_uid. rewrite Hs1, Hu. simpl. congruence. }
  unfold outcome. destruct (fates (world s1)) as [|[fresh now|e] rest]; try done.
  destruct (data r1) as [likeId|]; destruct Hq as [-> ->].
  - by apply delete_likes_others.
  - destruct (insert_like _ _ _ _ _ _) as [e|d] eqn:Hins; [done|].
    by eapply insert_like_others.
Qed.

(** C6, at a failing input.  Bob, who has no like on alice's comment [c1],
    toggles it: the like record is inserted, and the next fetch still
    reports the [likes_count] of before.  The update of the trigger is
    filtered by the update policy of [comments], and the comment is not
    bob's. *)
Theorem toggleCommentLike_count_of_others :
  select_likes (db (world bob_online)) "c1" "bob" = []
  ∧ (toggleCommentLike (Some "post-1") "c1" bob_online).1 = inr ()
  ∧ select_likes (db (world (toggleCommentLike (Some "post-1") "c1" bob_online).2))
                 "c1" "bob"
    = [Like.mk "u2" "c1" "bob" "2025-09-07T09:00:00+00:00"]
  ∧ reported_likes (world bob_online) "post-1" "c1" = Some 0%Z
  ∧ reported_likes (world (toggleCommentLike (Some "post-1") "c1" bob_online).2)
                   "post-1" "c1"
    = Some 0%Z.
Proof. by vm_compute. Qed.

(** On his own comment [c2] the count follows: one after the first toggle,
    back to zero, with the like record gone, after the second. *)
Example toggleCommentLike_own_comment :
  let once := (toggleCommentLike (Some "post-1") "c2" bob_online).2 in
  let twice := (toggleCommentLike (Some "post-1") "c2" once).2 in
  reported_likes (world bob_online) "post-1" "c2" = Some 0%Z
  ∧ select_likes (db (world once)) "c2" "bob"
    = [Like.mk "u2" "c2" "bob" "2025-09-07T09:00:00+00:00"]
  ∧ reported_likes (world once) "post-1" "c2" = Some 1%Z
  ∧ select_likes (db (world twice)) "c2" "bob" = []
  ∧ reported_likes (world twice) "post-1" "c2" = Some 0%Z.
Proof. by vm_compute. Qed.

(** * Further properties *)

(** ** The tree, for any input *)

Lemma index_pass_map_is_Some st data k :
  k ∈ ids data ∨ is_Some (commentMap st !! k) →
  is_Some (commentMap (foldl index_comment st data) !! k).
Proof.
  revert st. induction data as [|c data IH]; intros st Hk; simpl.
  - destruct Hk as [Hk|Hk]; [by apply elem_of_nil in Hk | done].
  - apply IH. simpl. unfold ids in Hk. rewrite fmap_cons, elem_of_cons in Hk.
    destruct (decide (Row.id c = k)) as [<-|Hne].
    + right. by rewrite lookup_insert_eq.
    + rewrite lookup_insert_ne by done.
      destruct Hk as [[Hk|Hk]|Hk]; [congruence | by left | by right].
Qed.

Lemma index_of_is_Some data (c : Comment) :
  c ∈ data → ∃ a, index_of data !! Row.id c = Some a ∧ a < length data.
Proof.
  intros Hc.
  destruct (index_pass_map_is_Some empty_builder data (Row.id c)) as [a Ha].
  { left. unfold ids. apply list_elem_of_fmap. by exists c. }
  exists a. split; [done|].
  apply index_of_Some in Ha as (d & Hd & _). by eapply lookup_lt_Some.
Qed.

(** X1. Whatever the input, the heap holds one node per input comment, in
    input order and with the fields copied, the dropped ones included; every
    root reference and every entry of every [replies] array points to one
    of these nodes.  In particular [commentMap.get(comment.id)!] is never
    [undefined]. *)
Theorem buildTree_references_in_bounds (data : list Comment) :
  let t := buildTree data in
  fields <$> nodes t = data
  ∧ Forall (λ a, a < length (nodes t)) (roots t)
  ∧ Forall (λ n, Forall (λ r, ∃ a, r = Some a ∧ a < length (nodes t)) (replies n))
           (nodes t).
Proof.
  intros t. subst t. split_and!.
  - apply list_eq. intros a. rewrite list_lookup_fmap. apply buildTree_comment_at.
  - apply Forall_forall. intros a Ha. 
    rewrite buildTree_roots in Ha. apply elem_of_positions in Ha as (i & c & Hi & _ & ->).
    rewrite buildTree_length. simpl. by eapply lookup_lt_Some.
  - rewrite buildTree_length.
    apply Forall_forall. intros n [p Hn]%list_elem_of_lookup.
    rewrite buildTree_nodes in Hn.
    destruct (data !! p) as [c|]; [|done]. injection Hn as <-.
    apply Forall_forall. intros r Hr. unfold pushed in Hr. simpl in Hr.
    apply list_elem_of_fmap in Hr as (d & -> & [_ Hd]%list_elem_of_filter).
    destruct (index_of_is_Some data d Hd) as (a & -> & Ha).
    by exists a.
Qed.

Lemma positions_ge {A} (p : A → bool) base (l : list A) a :
  a ∈ positions p base l → base ≤ a.
Proof. intros (i & x & _ & _ & ->)%elem_of_positions. lia. Qed.

Lemma NoDup_positions {A} (p : A → bool) base (l : list A) :
  NoDup (positions p base l).
Proof.
  revert base. induction l as [|x l IH]; intros base; simpl; [constructor|].
  destruct (p x); simpl; [|done].
  constructor; [|done]. intros Hin%positions_ge. lia.
Qed.

(** ** The tree of a flat comment set: no comment twice, no cycle in sight *)

Section flat_more.
Context (data : list Comment) (Hflat : flat_comment_set data).

Lemma flat_lists p a :
  lists (buildTree data) p a ↔
  ∃ c d : Comment, data !! p = Some c ∧ data !! a = Some d
                   ∧ Row.parent_id d = Some (Row.id c).
Proof.
  unfold lists. split.
  - intros (n & Hn & Ha). rewrite buildTree_nodes in Hn.
    destruct (data !! p) as [c|] eqn:Hp; [|done]. injection Hn as <-. simpl in Ha.
    apply (flat_replies data Hflat p a c Hp) in Ha as (d & Hd & Hpd).
    by exists c, d.
  - intros (c & d & Hp & Ha & Hpd). eexists. rewrite buildTree_nodes, Hp. simpl.
    split; [done|]. simpl. apply (flat_replies data Hflat p a c Hp). by exists d.
Qed.

Lemma flat_lists_parent p q a :
  lists (buildTree data) p a → lists (buildTree data) q a → p = q.
Proof.
  intros (c & d & Hp & Ha & Hpd)%flat_lists (c' & d' & Hq & Ha' & Hpd')%flat_lists.
  rewrite Ha in Ha'. injection Ha' as <-. rewrite Hpd in Hpd'. injection Hpd' as Hid.
  by eapply (flat_same_id data Hflat).
Qed.

Lemma flat_root_not_listed p a :
  a ∈ roots (buildTree data) → ¬ lists (buildTree data) p a.
Proof.
  rewrite buildTree_roots, elem_of_positions.
  intros (i & d & Hi & Hroot & ->) (c & d' & _ & Ha & Hpd)%flat_lists.
  simpl in Ha. rewrite Hi in Ha. injection Ha as <-.
  apply (flat_is_root data Hflat) in Hroot; [congruence|].
  by eapply list_elem_of_lookup_2.
Qed.

Lemma flat_data_NoDup : NoDup data.
Proof. eapply NoDup_fmap_1. apply Hflat. Qed.

Lemma flat_replies_NoDup p : NoDup (pushed (index_of data) p data).
Proof.
  unfold pushed. apply NoDup_fmap_2_strong.
  - intros c d [_ Hc]%list_elem_of_filter [_ Hd]%list_elem_of_filter Heq.
    apply list_elem_of_lookup in Hc as [i Hi]. apply list_elem_of_lookup in Hd as [j Hj].
    rewrite (index_of_unique data i c), (index_of_unique data j d) in Heq
      by (done || apply Hflat).
    injection Heq as ->. congruence.
  - apply NoDup_filter, flat_data_NoDup.
Qed.
End flat_more.

(** X2. In the tree of a flat comment set no comment is listed twice: the
    root array and every [replies] array are free of repetitions, a node
    listed in a [replies] array is not a root, and it is listed by one node
    only. *)
Theorem buildTree_lists_each_comment_once (data : list Comment) :
  flat_comment_set data →
  let t := buildTree data in
  NoDup (roots t)
  ∧ (∀ n, n ∈ nodes t → NoDup (replies n))
  ∧ (∀ p a, lists t p a → (a ∉ roots t) ∧ ∀ q, lists t q a → q = p).
Proof.
  intros Hflat t. split_and!.
  - unfold t. rewrite buildTree_roots. apply NoDup_positions.
  - intros n [p Hn]%list_elem_of_lookup. unfold t in Hn.
    rewrite buildTree_nodes in Hn. destruct (data !! p); [|done].
    injection Hn as <-. simpl. by apply flat_replies_NoDup.
  - intros p a Hpa. split.
    + intros Hroot. by eapply (flat_root_not_listed data Hflat p a).
    + intros q Hqa. by eapply (flat_lists_parent data Hflat).
Qed.

Lemma buildTree_lists_each_comment_once_witness :
  flat_comment_set thread
  ∧ NoDup (roots (buildTree thread))
  ∧ ∀ n, n ∈ nodes (buildTree thread) → NoDup (replies n).
Proof.
  split; [apply thread_flat|].
  destruct (buildTree_lists_each_comment_once thread thread_flat) as (H1 & H2 & _).
  by split.
Defined.

Lemma tc_last {A} (R : relation A) x y :
  tc R x y → ∃ z, rtc R x z ∧ R z y.
Proof.
  revert y. apply tc_ind_r.
  - intros y Hxy. by exists x.
  - intros y z Hxy Hyz _. exists y. split; [by apply tc_rtc | done].
Qed.

(** X3. In the tree of a flat comment set no node that can be reached from
    the root array lies on a cycle of [replies]: the recursion of
    [CommentItem] over the root array comes to an end.  (A cycle can exist,
    as for a comment that is its own parent, but out of reach.) *)
Theorem buildTree_rendered_part_acyclic (data : list Comment) (a : addr) :
  flat_comment_set data →
  reachable (buildTree data) a →
  ¬ tc (lists (buildTree data)) a a.
Proof.
  intros Hflat. induction 1 as [a Ha | p n a Hp IH Hn Ha]; intros Hcycle.
  - apply tc_last in Hcycle as (q & _ & Hqa).
    by eapply (flat_root_not_listed data Hflat q a).
  - assert (lists (buildTree data) p a) as Hpa by (by exists n).
    apply tc_last in Hcycle as (q & Haq & Hqa).
    assert (q = p) as -> by (by eapply (flat_lists_parent data Hflat)).
    apply IH. eapply tc_rtc_r; [by apply tc_once | done].
Qed.

Lemma buildTree_rendered_part_acyclic_witness :
  (flat_comment_set thread ∧ reachable (buildTree thread) 1)
  ∧ ¬ tc (lists (buildTree thread)) 1 1.
Proof.
  assert (reachable (buildTree thread) 1) as Hreach.
  { eapply (reachable_reply _ 0).
    - apply reachable_root. by left.
    - reflexivity.
    - by left. }
  split; [split; [apply thread_flat | done]|].
  by apply (buildTree_rendered_part_acyclic thread 1 thread_flat).
Defined.

(** ** The constraints are kept *)

Lemma Forall_sublist_of {A} (P : A → Prop) (k l : list A) :
  k `sublist_of` l → Forall P l → Forall P k.
Proof.
  rewrite !Forall_forall. intros Hkl Hl x Hx. apply Hl. by eapply elem_of_sublist.
Qed.

Lemma update_comment_likes_count_key uid now d commentId (tbl : list Row.t) :
  key <$> update_comment_likes_count uid now d commentId tbl = key <$> tbl.
Proof.
  unfold update_comment_likes_count. rewrite <- list_fmap_compose.
  apply list_fmap_ext. intros _ r _. simpl.
  by destruct (decide (Row.id r = commentId ∧ may_update_comment uid r)).
Qed.

Lemma key_ids (tbl tbl' : list Row.t) :
  key <$> tbl' = key <$> tbl → Row.id <$> tbl' = Row.id <$> tbl.
Proof.
  intros Hkey.
  assert (∀ t : list Row.t,
            Row.id <$> t = (λ k : string * string * string * option string,
                              k.1.1.1) <$> (key <$> t)) as Hid.
  { intros t. rewrite <- list_fmap_compose. by apply list_fmap_ext. }
  by rewrite (Hid tbl'), (Hid tbl), Hkey.
Qed.

Lemma key_Forall (P : string * string * string * option string → Prop)
    (tbl tbl' : list Row.t) :
  key <$> tbl' = key <$> tbl →
  Forall (λ r, P (key r)) tbl → Forall (λ r, P (key r)) tbl'.
Proof.
  intros Hkey Hall.
  apply (Forall_fmap key P tbl'). rewrite Hkey. by apply (Forall_fmap key P tbl).
Qed.

(** Rewriting counts and stamps leaves every constraint as it was. *)
Lemma store_wf_key_ext s tbl' :
  key <$> tbl' = key <$> comments_tbl s →
  store_wf s →
  store_wf {| comments_tbl := tbl'; comment_likes_tbl := comment_likes_tbl s;
              profiles_tbl := profiles_tbl s; posts_tbl := posts_tbl s |}.
Proof.
  intros Hkey [H1 H2 H3 H4 H5 H6 H7 H8 H9].
  pose proof (key_ids _ _ Hkey) as Hids.
  split; simpl; try done.
  - by rewrite Hids.
  - by apply (key_Forall (λ k, is_uuid_text k.1.1.1) _ _ Hkey).
  - by apply (key_Forall (λ k, k.1.1.2 ∈ posts_tbl s) _ _ Hkey).
  - by apply (key_Forall (λ k, is_Some (profiles_tbl s !! k.1.2)) _ _ Hkey).
  - rewrite Hids.
    by apply (key_Forall (λ k, ∀ p, k.2 = Some p → p ∈ Row.id <$> comments_tbl s)
                _ _ Hkey).
  - by rewrite Hids.
Qed.

Lemma select_likes_key s commentId userId :
  select_likes s commentId userId = [] →
  (commentId, userId) ∉ like_key <$> comment_likes_tbl s.
Proof.
  intros Hnone (l & Hl & Hin)%list_elem_of_fmap.
  assert (l ∈ select_likes s commentId userId) as Hsel.
  { unfold select_likes. apply list_elem_of_filter. split; [|done].
    unfold like_key in Hl. by simplify_eq. }
  rewrite Hnone in Hsel. by eapply not_elem_of_nil.
Qed.

Lemma insert_like_wf uid fresh now commentId userId s s' :
  store_wf s →
  insert_like uid fresh now commentId userId s = inr s' →
  store_wf s'.
Proof.
  intros Hwf. unfold insert_like.
  destruct (bool_decide (uid = Some userId)); simpl; [|done].
  destruct (bool_decide (fresh ∈ Like.id <$> comment_likes_tbl s)) eqn:Hfresh; [done|].
  destruct (bool_decide (select_likes s commentId userId ≠ [])) eqn:Hsel; [done|].
  destruct (bool_decide (commentId ∈ Row.id <$> comments_tbl s)) eqn:Hc; simpl; [|done].
  destruct (bool_decide (is_Some (profiles_tbl s !! userId))) eqn:Hp; simpl; [|done].
  intros [= <-].
  apply bool_decide_eq_false in Hfresh. apply bool_decide_eq_false in Hsel.
  apply bool_decide_eq_true in Hc. apply bool_decide_eq_true in Hp.
  assert (select_likes s commentId userId = []) as Hnone
    by (by destruct (decide (select_likes s commentId userId = []))).
  pose proof (update_comment_likes_count_key uid now 1 commentId (comments_tbl s))
    as Hkey.
  pose proof (key_ids _ _ Hkey) as Hids.
  destruct (store_wf_key_ext s _ Hkey Hwf) as [H1 H2 H3 H4 H5 H6 H7 H8 H9].
  simpl in *. split; simpl; try done.
  - rewrite fmap_app. apply NoDup_app. split_and!; [done | | apply NoDup_singleton].
    intros x Hx ->%list_elem_of_singleton. done.
  - rewrite fmap_app. apply NoDup_app. split_and!; [done | | apply NoDup_singleton].
    intros x Hx ->%list_elem_of_singleton. by apply (select_likes_key s commentId userId).
  - apply Forall_app. split; [done|]. apply Forall_singleton. simpl. by rewrite Hids.
  - apply Forall_app. split; [done|]. by apply Forall_singleton.
Qed.

Lemma delete_likes_wf uid now likeId s :
  store_wf s → store_wf (delete_likes uid now likeId s).
Proof.
  intros Hwf. unfold delete_likes.
  set (hit := λ l, Like.id l = likeId ∧ may_delete_like uid l).
  assert (key <$> foldl (λ tbl l, update_comment_likes_count uid now (-1)
                                     (Like.comment_id l) tbl)
                        (comments_tbl s) (filter hit (comment_likes_tbl s))
          = key <$> comments_tbl s) as Hkey.
  { generalize (filter hit (comment_likes_tbl s)). intros victims.
    generalize (comments_tbl s). intros tbl0. revert tbl0.
    induction victims as [|l victims IH]; intros tbl0; simpl; [done|].
    by rewrite IH, update_comment_likes_count_key. }
  destruct (store_wf_key_ext s _ Hkey Hwf) as [H1 H2 H3 H4 H5 H6 H7 H8 H9].
  simpl in *. split; simpl; try done.
  - eapply sublist_NoDup; [exact H6|]. apply fmap_sublist, sublist_filter.
  - eapply sublist_NoDup; [exact H7|]. apply fmap_sublist, sublist_filter.
  - eapply Forall_sublist_of; [apply sublist_filter | done].
  - eapply Forall_sublist_of; [apply sublist_filter | done].
Qed.

Lemma insert_comment_wf uid fresh now postId authorId parentId text s s' :
  is_uuid_text fresh →
  store_wf s →
  insert_comment uid fresh now postId authorId parentId text s = inr s' →
  store_wf s'.
Proof.
  intros Huuid [H1 H2 H3 H4 H5 H6 H7 H8 H9]. unfold insert_comment.
  destruct (bool_decide (uid = Some authorId)); simpl; [|done].
  destruct (bool_decide (fresh ∈ Row.id <$> comments_tbl s)) eqn:Hfresh; [done|].
  destruct (bool_decide (postId ∈ posts_tbl s)) eqn:Hpost; simpl; [|done].
  destruct (bool_decide (is_Some (profiles_tbl s !! authorId))) eqn:Hauth; simpl; [|done].
  destruct (from_option _ true parentId) eqn:Hparent; simpl; [|done].
  intros [= <-].
  apply bool_decide_eq_false in Hfresh. apply bool_decide_eq_true in Hpost.
  apply bool_decide_eq_true in Hauth.
  split; simpl; try done.
  - rewrite fmap_app. apply NoDup_app. split_and!; [done | | apply NoDup_singleton].
    intros x Hx ->%list_elem_of_singleton. done.
  - apply Forall_app. split; [done|]. by apply Forall_singleton.
  - apply Forall_app. split; [done|]. by apply Forall_singleton.
  - apply Forall_app. split; [done|]. by apply Forall_singleton.
  - rewrite fmap_app. apply Forall_app. split.
    + eapply Forall_impl; [exact H5|]. intros r Hr p Hp. apply elem_of_app. left. eauto.
    + apply Forall_singleton. simpl. intros p ->. simpl in Hparent.
      apply bool_decide_eq_true in Hparent. apply elem_of_app. by left.
  - rewrite fmap_app. eapply Forall_impl; [exact H8|].
    intros l Hl. apply elem_of_app. by left.
Qed.

Lemma cascade_sublist fuel gone tbl : cascade fuel gone tbl `sublist_of` tbl.
Proof.
  revert gone tbl. induction fuel as [|fuel IH]; intros gone tbl; simpl; [done|].
  destruct (filter (child_of gone) tbl) as [|v victims]; [done|].
  etrans; [apply IH | apply sublist_filter].
Qed.

Lemma delete_comments_sublist uid commentId s :
  comments_tbl (delete_comments uid commentId s) `sublist_of` comments_tbl s.
Proof.
  unfold delete_comments. simpl. etrans; [apply cascade_sublist | apply sublist_filter].
Qed.

Lemma delete_comments_wf uid commentId s :
  store_wf s → store_wf (delete_comments uid commentId s).
Proof.
  intros [H1 H2 H3 H4 H5 H6 H7 H8 H9].
  pose proof (delete_comments_sublist uid commentId s) as Hsub.
  assert (∀ x, x ∈ comments_tbl s →
               x ∈ comments_tbl (delete_comments uid commentId s)
               ∨ Row.id x ∈ Row.id <$> filter
                   (λ r, r ∉ comments_tbl (delete_comments uid commentId s))
                   (comments_tbl s)) as Hsplit.
  { intros x Hx.
    destruct (decide (x ∈ comments_tbl (delete_comments uid commentId s)));
      [by left | right].
    apply list_elem_of_fmap. exists x. split; [done|]. by apply list_elem_of_filter. }
  split.
  - eapply sublist_NoDup; [exact H1|]. by apply fmap_sublist.
  - by eapply Forall_sublist_of.
  - by eapply Forall_sublist_of.
  - by eapply Forall_sublist_of.
  - apply Forall_forall. intros r Hr p Hp.
    rewrite Forall_forall in H5.
    assert (r ∈ comments_tbl s) as Hr0 by (by eapply elem_of_sublist).
    apply (H5 r Hr0) in Hp as Hin. apply list_elem_of_fmap in Hin as (x & -> & Hx).
    destruct (decide (x ∈ comments_tbl (delete_comments uid commentId s))) as [Hk|Hk].
    + apply list_elem_of_fmap. by exists x.
    + exfalso. by eapply (delete_comments_closed uid commentId s x r).
  - simpl. eapply sublist_NoDup; [exact H6|]. apply fmap_sublist, sublist_filter.
  - simpl. eapply sublist_NoDup; [exact H7|]. apply fmap_sublist, sublist_filter.
  - apply Forall_forall. intros l Hl. unfold delete_comments in Hl. simpl in Hl.
    apply list_elem_of_filter in Hl as [Hkeep Hl].
    rewrite Forall_forall in H8. apply H8 in Hl.
    apply list_elem_of_fmap in Hl as (x & Hid & Hx).
    destruct (Hsplit x Hx) as [Hk|Hgone].
    + apply list_elem_of_fmap. by exists x.
    + exfalso. apply Hkeep. by rewrite Hid.
  - simpl. eapply Forall_sublist_of; [apply sublist_filter | done].
Qed.

Lemma mutate_wf q run s :
  (∀ uid fresh now d d',
     is_uuid_text fresh → store_wf d → run uid fresh now d = inr d' → store_wf d') →
  store_wf (db (world s)) →
  Forall uuid_fate (fates (world s)) →
  store_wf (db (world (mutate q run s).2))
  ∧ Forall uuid_fate (fates (world (mutate q run s).2)).
Proof.
  intros Hrun Hwf Hfates.
  destruct (mutate_inv q run s) as (r & s' & -> & _ & _ & _ & _ & Hf & _ & _ & Hd).
  simpl. rewrite Hf, Hd. split.
  - unfold outcome. destruct (fates (world s)) as [|[fresh now|e] rest]; try done.
    apply Forall_cons in Hfates as [Hfresh _].
    destruct (run _ _ _ _) as [e|d] eqn:Hr; [done|]. by eapply Hrun.
  - destruct (fates (world s)); [done|]. by apply Forall_cons in Hfates as [_ ?].
Qed.

Lemma fetchComments_wf postId s :
  store_wf (db (world s)) →
  Forall uuid_fate (fates (world s)) →
  store_wf (db (world (fetchComments postId s).2))
  ∧ Forall uuid_fate (fates (world (fetchComments postId s).2)).
Proof.
  intros Hwf Hfates.
  destruct (fetchComments_inv postId s) as (s' & -> & _ & Hd & _ & _ & _ & H).
  simpl. rewrite Hd. split; [done|].
  destruct (or_null postId); [|by subst].
  destruct H as (_ & -> & _).
  destruct (fates (world s)); [done|]. by apply Forall_cons in Hfates as [_ ?].
Qed.

Lemma demo_store_wf : store_wf demo_store.
Proof.
  split; simpl.
  - apply (bool_decide_unpack _). by vm_compute.
  - repeat first [ apply Forall_nil_2 | apply Forall_cons_2; [by unfold is_uuid_text|] ].
  - repeat first [ apply Forall_nil_2
                 | apply Forall_cons_2; [apply (bool_decide_unpack _); by vm_compute|] ].
  - repeat first [ apply Forall_nil_2
                 | apply Forall_cons_2; [apply (bool_decide_unpack _); by vm_compute|] ].
  - repeat first [ apply Forall_nil_2
                 | apply Forall_cons_2;
                   [intros p [= <-]; apply (bool_decide_unpack _); by vm_compute|] ].
  - constructor.
  - constructor.
  - constructor.
  - constructor.
Qed.

Lemma served_uuid_fate uuids :
  Forall is_uuid_text uuids → Forall uuid_fate (served uuids).
Proof. unfold served. intros H. apply Forall_fmap. by eapply Forall_impl. Qed.

Lemma online_uuid_fate :
  Forall uuid_fate (served ["u1"; "u2"; "u3"; "u4"; "u5"; "u6"]).
Proof.
  apply served_uuid_fate.
  repeat first [ apply Forall_nil_2 | apply Forall_cons_2; [by unfold is_uuid_text|] ].
Qed.

(** X4. The mutations of the hook keep the store within the constraints of
    the schema: primary keys, the foreign keys of [comments] and
    [comment_likes] (the cascade leaves no reply and no like behind), and
    one like per user and comment.  This holds whatever the store answers,
    as long as the uuids it draws are uuids. *)
Theorem perform_keeps_constraints (postId : option string) (m : Mutation) (s : App) :
  store_wf (db (world s)) →
  Forall uuid_fate (fates (world s)) →
  store_wf (db (world (perform postId m s).2)).
Proof.
  intros Hwf Hfates. destruct m as [text parentId|commentId|commentId]; simpl.
  - rewrite createComment_unfold.
    destruct (or_null postId) as [post|]; [|done].
    destruct (session (world s)) as [u|]; [|done].
    unfold comments_insert.
    match goal with |- context [mutate ?q ?run s] =>
      destruct (mutate_wf q run s) as [Hwf1 Hf1];
        [ intros uid fresh now d d' Hfresh Hd Hrun; by eapply insert_comment_wf
        | done | done | ];
      destruct (mutate q run s) as [[e|r] s1]; [done|]
    end.
    simpl in *. destruct (error r); [done|]. by apply fetchComments_wf.
  - rewrite deleteComment_unfold. unfold comments_delete.
    match goal with |- context [mutate ?q ?run s] =>
      destruct (mutate_wf q run s) as [Hwf1 Hf1];
        [ intros uid fresh now d d' _ Hd [= <-]; by apply delete_comments_wf
        | done | done | ];
      destruct (mutate q run s) as [[e|r] s1]; [done|]
    end.
    simpl in *. destruct (error r); [done|]. by apply fetchComments_wf.
  - destruct (session (world s)) as [u|] eqn:Hu;
      [|by rewrite toggleCommentLike_unfold, Hu].
    destruct (toggleCommentLike_inv postId commentId u s Hu)
      as (r1 & s1 & q & run & r2 & s2 & s3 & Hsel & Hmut & Hfetch & -> & Hq).
    simpl.
    destruct (comment_likes_select_single_inv commentId (AuthUser.id u) s)
      as (? & ? & Hsel' & _ & _ & Hd1 & _ & _ & Hf1 & _).
    rewrite Hsel in Hsel'. injection Hsel' as <- <-.
    assert (Forall uuid_fate (fates (world s1))) as Hfates1.
    { rewrite Hf1. destruct (fates (world s)); [done|].
      by apply Forall_cons in Hfates as [_ ?]. }
    destruct (mutate_wf q run s1) as [Hwf2 Hf2]; [| by rewrite Hd1 | done |].
    { intros uid fresh now d d' _ Hd Hrun.
      destruct (data r1); destruct Hq as [-> ->].
      - injection Hrun as <-. by apply delete_likes_wf.
      - by eapply insert_like_wf. }
    rewrite Hmut in Hwf2, Hf2. simpl in *.
    pose proof (fetchComments_wf postId s2 Hwf2 Hf2) as [Hwf3 _].
    by rewrite Hfetch in Hwf3.
Qed.

Lemma perform_keeps_constraints_witness :
  (store_wf (db (world alice_online))
   ∧ Forall uuid_fate (fates (world alice_online)))
  ∧ store_wf (db (world (perform (Some "post-1") (DeleteComment "c1") alice_online).2)).
Proof.
  split; [split; [apply demo_store_wf | apply online_uuid_fate]|].
  apply perform_keeps_constraints; [apply demo_store_wf | apply online_uuid_fate].
Defined.

(** ** What the select hands to the tree construction *)

(** X5. From a store within its constraints, the rows the select returns
    for a post form a flat comment set: ids pairwise distinct and, like the
    parent ids, not empty.  The tree construction is then within the
    premises of the properties of flat comment sets. *)
Theorem select_comments_flat (leb : string → string → bool) (s : Store)
    (postId : string) :
  store_wf s → flat_comment_set (select_comments leb s postId).
Proof.
  intros [H1 H2 _ _ H5 _ _ _ _]. unfold select_comments.
  set (R := λ r1 r2 : Row.t, Is_true (leb (Row.created_at r1) (Row.created_at r2))).
  set (rows := filter (λ r, Row.post_id r = postId) (comments_tbl s)).
  assert (rows `sublist_of` comments_tbl s) as Hsub by apply sublist_filter.
  split.
  - unfold ids. rewrite <- list_fmap_compose.
    change (NoDup (Row.id <$> merge_sort R rows)).
    rewrite merge_sort_Permutation.
    eapply sublist_NoDup; [exact H1|]. by apply fmap_sublist.
  - apply Forall_fmap. simpl. rewrite merge_sort_Permutation.
    by eapply Forall_sublist_of.
  - apply Forall_fmap. simpl. rewrite merge_sort_Permutation.
    eapply Forall_sublist_of; [done|].
    rewrite Forall_forall in H5, H2 |- *. intros r Hr p Hp.
    apply (H5 r Hr) in Hp as (x & -> & Hx)%list_elem_of_fmap. by apply H2.
Qed.

Lemma select_comments_flat_witness :
  store_wf demo_store ∧ flat_comment_set (select_comments String.leb demo_store "post-1").
Proof.
  split; [apply demo_store_wf|].
  apply (select_comments_flat String.leb demo_store "post-1" demo_store_wf).
Defined.

(** The select returns the rows of the post and no others, each once,
    in ascending order of [created_at] whenever the store's order on
    timestamps is total and transitive. *)
Lemma select_comments_sorted (leb : string → string → bool) (s : Store)
    (postId : string) :
  Total (λ a b, Is_true (leb a b)) →
  Transitive (λ a b, Is_true (leb a b)) →
  columns <$> select_comments leb s postId
  ≡ₚ filter (λ r, Row.post_id r = postId) (comments_tbl s)
  ∧ StronglySorted
      (λ c d : Comment, Is_true (leb (Row.created_at c) (Row.created_at d)))
      (select_comments leb s postId).
Proof.
  intros Htotal Htrans. unfold select_comments.
  set (R := λ r1 r2 : Row.t, Is_true (leb (Row.created_at r1) (Row.created_at r2))).
  assert (Total R) as HtotalR by (intros r1 r2; apply Htotal).
  assert (Transitive R) as HtransR by (intros r1 r2 r3; apply Htrans).
  split.
  - rewrite <- list_fmap_compose.
    rewrite (list_fmap_ext _ id (merge_sort R _)) by done.
    rewrite list_fmap_id. apply merge_sort_Permutation.
  - eapply (StronglySorted_fmap _ R); [|by apply StronglySorted_merge_sort].
    by intros r1 r2.
Qed.

Lemma select_comments_sorted_witness :
  (Total (λ a b, Is_true (String.leb a b))
   ∧ Transitive (λ a b, Is_true (String.leb a b)))
  ∧ StronglySorted
      (λ c d : Comment, Is_true (String.leb (Row.created_at c) (Row.created_at d)))
      (select_comments String.leb demo_store "post-1").
Proof.
  assert (Total (λ a b, Is_true (String.leb a b))) as Htotal
    by apply String.le_total.
  assert (Transitive (λ a b, Is_true (String.leb a b))) as Htrans.
  { intros a b c. apply (PreOrder_Transitive (R := String.le)). }
  split; [by split|].
  by apply (select_comments_sorted String.leb demo_store "post-1").
Defined.

(** ** Which comments are shown *)

Lemma anchored_elem_of data d : anchored data d → d ∈ data.
Proof. by destruct 1. Qed.

(** X6. In the tree of a flat comment set the nodes that can be reached
    from the root array, the ones [CommentSection] shows, are exactly the
    comments whose [parent_id] chain ends in a comment without parent.  A
    reply under a dropped comment is dropped with it. *)
Theorem buildTree_shows_anchored (data : list Comment) (a : addr) :
  flat_comment_set data →
  reachable (buildTree data) a ↔ ∃ d, data !! a = Some d ∧ anchored data d.
Proof.
  intros Hflat. split.
  - induction 1 as [a Ha | p n a Hp IH Hn Ha].
    + rewrite buildTree_roots in Ha.
      apply elem_of_positions in Ha as (i & d & Hi & Hroot & ->). simpl.
      exists d. split; [done|]. apply list_elem_of_lookup_2 in Hi as Hd.
      apply anchored_root; [done|]. by apply (flat_is_root data Hflat).
    + destruct IH as (c' & Hc' & Hanch).
      assert (lists (buildTree data) p a) as Hpa by (by exists n).
      apply (flat_lists data Hflat) in Hpa as (c & d & Hc & Hd & Hpd).
      rewrite Hc in Hc'. injection Hc' as <-.
      exists d. split; [done|]. eapply anchored_reply; [done | | done].
      by eapply list_elem_of_lookup_2.
  - intros (d & Ha & Hanch). revert a Ha.
    induction Hanch as [d Hd Hp | c d Hc IH Hd Hp]; intros a Ha.
    + apply reachable_root. rewrite buildTree_roots. apply elem_of_positions.
      exists a, d. split_and!; [done | | done].
      by apply (flat_is_root data Hflat).
    + apply anchored_elem_of in Hc as Hcin.
      apply list_elem_of_lookup in Hcin as [p Hpc].
      assert (lists (buildTree data) p a) as (n & Hn & Hin).
      { apply (flat_lists data Hflat). by exists c, d. }
      eapply reachable_reply; [by apply IH | done | done].
Qed.

Lemma buildTree_shows_anchored_witness :
  flat_comment_set thread_with_orphan
  ∧ (reachable (buildTree thread_with_orphan) 3
     ↔ ∃ d, thread_with_orphan !! 3 = Some d ∧ anchored thread_with_orphan d).
Proof.
  split; [apply thread_with_orphan_flat|].
  apply (buildTree_shows_anchored thread_with_orphan 3 thread_with_orphan_flat).
Defined.

(** ** [fetchComments] *)

(** X7. [fetchComments] never throws, sends no write and leaves the tables
    alone; on a hook without a post id it sends nothing and changes
    nothing. *)
Theorem fetchComments_resolves (postId : option string) (s : App) :
  (fetchComments postId s).1 = inr ()
  ∧ db (world (fetchComments postId s).2) = db (world s)
  ∧ writes (journal (world (fetchComments postId s).2)) = writes (journal (world s))
  ∧ (truthy_opt postId = false → (fetchComments postId s).2 = s).
Proof.
  destruct (fetchComments_inv postId s) as (s' & -> & _ & Hd & _ & _ & Hw & H).
  simpl. split_and!; try done.
  intros Hfalsy. unfold or_null in H. by rewrite Hfalsy in H.
Qed.

Lemma fetchComments_resolves_witness :
  truthy_opt None = false
  ∧ (fetchComments None alice_online).2 = alice_online.
Proof.
  split; [done|].
  by apply (fetchComments_resolves None alice_online).
Defined.

(** X8. A fetch whose query is refused leaves the tree as it was, records
    "Failed to load comments" and ends with [loading] false.  A fetch whose
    query is served replaces the tree by the one of the rows of the post,
    ends with [loading] false, and leaves [error] as it was: the message
    of an earlier failure stays. *)
Theorem fetchComments_outcome (postId : option string) (post : string) (s : App) :
  or_null postId = Some post →
  let s' := (fetchComments postId s).2 in
  Hook.loading (hook s') = false
  ∧ (head_served (world s) = false →
     Hook.comments (hook s') = Hook.comments (hook s)
     ∧ Hook.error (hook s') = Some "Failed to load comments")
  ∧ (head_served (world s) = true →
     Hook.comments (hook s')
     = buildTree (select_comments (ts_leb (world s)) (db (world s)) post)
     ∧ Hook.error (hook s') = Hook.error (hook s)).
Proof.
  intros Hpost s'. subst s'.
  destruct (fetchComments_inv postId s) as (s' & -> & _ & _ & _ & _ & _ & H).
  rewrite Hpost in H. destruct H as (_ & _ & Hl & H). simpl.
  split_and!; [done | |]; intros Hs; by rewrite Hs in H.
Qed.

Lemma fetchComments_outcome_witness :
  or_null (Some "post-1") = Some "post-1"
  ∧ Hook.loading (hook (fetchComments (Some "post-1") alice_offline).2) = false.
Proof.
  split; [done|].
  by destruct (fetchComments_outcome (Some "post-1") "post-1" alice_offline eq_refl)
    as [H _].
Defined.

Lemma fetchComments_error_sticky postId s :
  is_Some (Hook.error (hook s)) →
  is_Some (Hook.error (hook (fetchComments postId s).2)).
Proof.
  intros Herr.
  destruct (fetchComments_inv postId s) as (s' & -> & _ & _ & _ & _ & _ & H).
  simpl. destruct (or_null postId); [|by subst].
  destruct H as (_ & _ & _ & H).
  destruct (head_served (world s)); destruct H as [_ ->]; done.
Qed.

(** ** The mutations and the store *)

Lemma perform_run postId m s :
  (∃ e s1, perform postId m s = (inl e, s1)
           ∧ hook s1 = hook s ∧ db (world s1) = db (world s)
           ∧ ∃ l, writes (journal (world s1)) = writes (journal (world s)) ++ l
                  ∧ length l ≤ 1)
  ∨ (∃ s1, perform postId m s = fetchComments postId s1
           ∧ hook s1 = hook s
           ∧ ∃ l, writes (journal (world s1)) = writes (journal (world s)) ++ l
                  ∧ length l ≤ 1).
Proof.
  destruct m as [text parentId|commentId|commentId]; simpl.
  - rewrite createComment_unfold.
    destruct (or_null postId) as [post|].
    2:{ left. do 2 eexists. split_and!; try done. exists []. rewrite app_nil_r. split; [done | simpl; lia]. }
    destruct (session (world s)) as [u|].
    2:{ left. do 2 eexists. split_and!; try done. exists []. rewrite app_nil_r. split; [done | simpl; lia]. }
    unfold comments_insert.
    match goal with |- context [mutate ?q ?run s] =>
      destruct (mutate_inv q run s) as (r & s1 & -> & Hh & _ & _ & _ & _ & Hj & He & Hd)
    end.
    assert (∃ l, writes (journal (world s1)) = writes (journal (world s)) ++ l
                 ∧ length l ≤ 1) as Hw.
    { rewrite Hj, writes_snoc. simpl. eexists. split; [done | simpl; lia]. }
    destruct (error r) as [e|] eqn:Herr.
    + left. do 2 eexists. split_and!; try done.
      rewrite Hd. by destruct (outcome _ _).
    + right. by exists s1.
  - rewrite deleteComment_unfold. unfold comments_delete.
    match goal with |- context [mutate ?q ?run s] =>
      destruct (mutate_inv q run s) as (r & s1 & -> & Hh & _ & _ & _ & _ & Hj & He & Hd)
    end.
    assert (∃ l, writes (journal (world s1)) = writes (journal (world s)) ++ l
                 ∧ length l ≤ 1) as Hw.
    { rewrite Hj, writes_snoc. simpl. eexists. split; [done | simpl; lia]. }
    destruct (error r) as [e|] eqn:Herr.
    + left. do 2 eexists. split_and!; try done.
      rewrite Hd. by destruct (outcome _ _).
    + right. by exists s1.
  - destruct (session (world s)) as [u|] eqn:Hu.
    2:{ left. rewrite toggleCommentLike_unfold, Hu. do 2 eexists.
        split_and!; try done. exists []. rewrite app_nil_r. split; [done | simpl; lia]. }
    right.
    destruct (toggleCommentLike_inv postId commentId u s Hu)
      as (r1 & s1 & q & run & r2 & s2 & s3 & Hsel & Hmut & Hfetch & -> & Hq).
    destruct (comment_likes_select_single_inv commentId (AuthUser.id u) s)
      as (? & ? & Hsel' & Hh1 & _ & _ & _ & _ & _ & Hj1 & _).
    rewrite Hsel in Hsel'. injection Hsel' as <- <-.
    destruct (mutate_inv q run s1) as (? & ? & Hmut' & Hh2 & _ & _ & _ & _ & Hj2 & _).
    rewrite Hmut in Hmut'. injection Hmut' as <- <-.
    exists s2. split_and!; [done | by rewrite Hh2 |].
    rewrite Hj2, Hj1, !writes_snoc. simpl. rewrite app_nil_r.
    destruct (is_write q); eexists; (split; [done | simpl; lia]).
Qed.

(** X9. No mutation retries: whatever the store answers, a call of
    [createComment], [deleteComment] or [toggleCommentLike] sends at most
    one write request. *)
Theorem perform_sends_at_most_one_write (postId : option string) (m : Mutation)
    (s : App) :
  ∃ l, writes (journal (world (perform postId m s).2))
       = writes (journal (world s)) ++ l
       ∧ length l ≤ 1.
Proof.
  destruct (perform_run postId m s)
    as [(e & s1 & -> & _ & _ & Hw) | (s1 & -> & _ & l & Hw & Hl)]; [done|].
  destruct (fetchComments_inv postId s1) as (s2 & -> & _ & _ & _ & _ & Hw2 & _).
  simpl. exists l. by rewrite Hw2.
Qed.



(** X11. A mutation that resolves on a hook with a post id has refetched:
    the last request it sent is the select of the post's comments, and
    [loading] is false again. *)
Theorem resolved_mutation_refetches (postId : option string) (post : string)
    (m : Mutation) (s s' : App) :
  or_null postId = Some post →
  perform postId m s = (inr (), s') →
  (∃ j, journal (world s') = j ++ [SelectComments post])
  ∧ Hook.loading (hook s') = false.
Proof.
  intros Hpost.
  destruct (perform_run postId m s)
    as [(e1 & s1 & -> & _) | (s1 & -> & _)]; [done|].
  destruct (fetchComments_inv postId s1) as (s2 & -> & _ & _ & _ & _ & _ & H).
  rewrite Hpost in H. destruct H as (Hj & _ & Hl & _).
  intros [= <-]. split; [by eexists | done].
Qed.

Lemma resolved_mutation_refetches_witness :
  (or_null (Some "post-1") = Some "post-1"
   ∧ perform (Some "post-1") (ToggleCommentLike "c2") bob_online
     = (inr (), (perform (Some "post-1") (ToggleCommentLike "c2") bob_online).2))
  ∧ Hook.loading (hook (perform (Some "post-1") (ToggleCommentLike "c2") bob_online).2)
    = false.
Proof.
  assert (perform (Some "post-1") (ToggleCommentLike "c2") bob_online
          = (inr (), (perform (Some "post-1") (ToggleCommentLike "c2") bob_online).2))
    as Hrun by (by vm_compute).
  split; [by split|].
  by destruct (resolved_mutation_refetches (Some "post-1") "post-1" _ _ _ eq_refl Hrun).
Defined.

(** X12. Once [error] holds a message, no call of the hook clears it:
    neither a fetch, served or not, nor any mutation. *)
Theorem hook_error_is_never_cleared (postId : option string) (s : App) :
  is_Some (Hook.error (hook s)) →
  is_Some (Hook.error (hook (fetchComments postId s).2))
  ∧ ∀ m, is_Some (Hook.error (hook (perform postId m s).2)).
Proof.
  intros Herr. split; [by apply fetchComments_error_sticky|].
  intros m. destruct (perform_run postId m s)
    as [(e1 & s1 & -> & Hh & _) | (s1 & -> & Hh & _)]; simpl.
  - by rewrite Hh.
  - apply fetchComments_error_sticky. by rewrite Hh.
Qed.

Lemma hook_error_is_never_cleared_witness :
  is_Some (Hook.error (hook after_failed_fetch))
  ∧ is_Some (Hook.error
               (hook (perform (Some "post-1") (ToggleCommentLike "c1")
                              after_failed_fetch).2)).
Proof.
  assert (is_Some (Hook.error (hook after_failed_fetch))) as Herr by (by eexists).
  split; [done|].
  by apply (hook_error_is_never_cleared (Some "post-1") after_failed_fetch Herr).
Defined.

(** ** Deleting what is not one's own *)

Lemma filter_all {A} (P : A → Prop) `{!∀ x, Decision (P x)} (l : list A) :
  Forall P l → filter P l = l.
Proof.
  induction 1 as [|x l Hx Hl IH]; [done|].
  by rewrite filter_cons, decide_True, IH.
Qed.

Lemma filter_none {A} (P : A → Prop) `{!∀ x, Decision (P x)} (l : list A) :
  Forall (λ x, ¬ P x) l → filter P l = [].
Proof.
  induction 1 as [|x l Hx Hl IH]; [done|].
  by rewrite filter_cons, decide_False, IH.
Qed.

Lemma cascade_nothing fuel tbl : cascade fuel [] tbl = tbl.
Proof.
  destruct fuel as [|fuel]; simpl; [done|].
  rewrite filter_none; [done|].
  apply Forall_forall. intros r _ (p & _ & Hp). by apply elem_of_nil in Hp.
Qed.

Lemma delete_comments_no_hit uid commentId s :
  (∀ r, r ∈ comments_tbl s → Row.id r = commentId → ¬ may_delete_comment uid r) →
  delete_comments uid commentId s = s.
Proof.
  intros Hno. unfold delete_comments.
  rewrite (filter_none (λ r, Row.id r = commentId ∧ may_delete_comment uid r)).
  2:{ apply Forall_forall. intros r Hr [Hid Hown]. by eapply Hno. }
  rewrite (filter_all (λ r, ¬ (Row.id r = commentId ∧ may_delete_comment uid r))).
  2:{ apply Forall_forall. intros r Hr [Hid Hown]. by eapply Hno. }
  simpl. rewrite cascade_nothing.
  rewrite (filter_none (λ r, r ∉ comments_tbl s)).
  2:{ apply Forall_forall. intros r Hr Hnr. done. }
  simpl. rewrite filter_all.
  2:{ apply Forall_forall. intros l _. apply not_elem_of_nil. }
  by destruct s.
Qed.

(** X13. Deleting a comment one did not write, or one that does not exist,
    changes no table, and when the request is served no error reaches the
    caller: the delete policy hides the row, and the store reports
    success. *)
Theorem deleteComment_of_others_is_silent (postId : option string)
    (commentId : string) (s : App) :
  (∀ r, r ∈ comments_tbl (db (world s)) → Row.id r = commentId →
        auth_uid (world s) ≠ Some (Row.author_id r)) →
  db (world (deleteComment postId commentId s).2) = db (world s)
  ∧ (head_served (world s) = true → (deleteComment postId commentId s).1 = inr ()).
Proof.
  intros Hno. split.
  - rewrite deleteComment_unfold. unfold comments_delete.
    match goal with |- context [mutate ?q ?run s] =>
      destruct (mutate_inv q run s) as (r & s1 & -> & _ & _ & _ & _ & _ & _ & He & Hd)
    end.
    assert (db (world s1) = db (world s)) as Hsame.
    { rewrite Hd. unfold outcome.
      destruct (fates (world s)) as [|[fresh now|e] rest]; try done.
      by apply delete_comments_no_hit. }
    destruct (error r); [done|].
    destruct (fetchComments_inv postId s1) as (s2 & -> & _ & Hd2 & _). simpl. congruence.
  - intros Hserved.
    by destruct (deleteComment_inv postId commentId s Hserved) as (? & ? & -> & _).
Qed.

Lemma deleteComment_of_others_is_silent_witness :
  (∀ r, r ∈ comments_tbl (db (world bob_online)) → Row.id r = "c1" →
        auth_uid (world bob_online) ≠ Some (Row.author_id r))
  ∧ db (world (deleteComment (Some "post-1") "c1" bob_online).2)
    = db (world bob_online).
Proof.
  assert (∀ r, r ∈ comments_tbl (db (world bob_online)) → Row.id r = "c1" →
               auth_uid (world bob_online) ≠ Some (Row.author_id r)) as Hno.
  { intros r Hr Hid. simpl in Hr.
    repeat (apply elem_of_cons in Hr as [->|Hr]); try done.
    by apply elem_of_nil in Hr. }
  split; [done|].
  by apply (deleteComment_of_others_is_silent (Some "post-1") "c1" bob_online Hno).
Defined.

(** ** Toggling a like, in general *)



Lemma update_comment_likes_count_filter uid now d commentId c (tbl : list Row.t) :
  filter (λ r, Row.id r = c) (update_comment_likes_count uid now d commentId tbl)
  = update_comment_likes_count uid now d commentId (filter (λ r, Row.id r = c) tbl).
Proof.
  unfold update_comment_likes_count.
  set (f := λ r, if decide (Row.id r = commentId ∧ may_update_comment uid r)
                 then _ else r).
  assert (∀ r, Row.id (f r) = Row.id r) as Hid.
  { intros r. unfold f.
    by destruct (decide (Row.id r = commentId ∧ may_update_comment uid r)). }
  induction tbl as [|r tbl IH]; [done|].
  rewrite fmap_cons, (filter_cons _ r), filter_cons, IH.
  destruct (decide (Row.id r = c)) as [Hr|Hr].
  - by rewrite decide_True by (by rewrite Hid).
  - by rewrite decide_False by (by rewrite Hid).
Qed.

Lemma update_comment_likes_count_no_hit uid now d commentId (tbl : list Row.t) :
  Forall (λ r, ¬ (Row.id r = commentId ∧ may_update_comment uid r)) tbl →
  update_comment_likes_count uid now d commentId tbl = tbl.
Proof.
  unfold update_comment_likes_count.
  induction 1 as [|r tbl Hr _ IH]; [done|].
  by rewrite fmap_cons, IH, decide_False.
Qed.


Section toggle.
Context (postId : option string) (commentId : string) (u : AuthUser.t) (s : App).
Context (f1 n1 fresh now : string) (rest : list Fate).
Context (Hwf : store_wf (db (world s))).
Context (Hu : session (world s) = Some u).
Context (Hfates : fates (world s) = Served f1 n1 :: Served fresh now :: rest).
Context (Hcomment : commentId ∈ Row.id <$> comments_tbl (db (world s))).
Context (Hprofile : is_Some (profiles_tbl (db (world s)) !! AuthUser.id u)).
Context (Hfresh : fresh ∉ Like.id <$> comment_likes_tbl (db (world s))).

Local Abbreviation before := (db (world s)).
Local Abbreviation after := (db (world (toggleCommentLike postId commentId s).2)).
Local Abbreviation uid := (AuthUser.id u).


End toggle.






Lemma update_comment_likes_count_filter_others uid now d commentId c
    (tbl : list Row.t) :
  (∀ r, r ∈ tbl → Row.id r = c → ¬ may_update_comment uid r) →
  filter (λ r, Row.id r = c) (update_comment_likes_count uid now d commentId tbl)
  = filter (λ r, Row.id r = c) tbl.
Proof.
  intros Hno. rewrite update_comment_likes_count_filter.
  apply update_comment_likes_count_no_hit, Forall_forall.
  intros r [Hid Hr]%list_elem_of_filter [_ Hown]. by eapply Hno.
Qed.

Lemma delete_likes_filter_others uid now likeId c s :
  (∀ r, r ∈ comments_tbl s → Row.id r = c → ¬ may_update_comment uid r) →
  filter (λ r, Row.id r = c) (comments_tbl (delete_likes uid now likeId s))
  = filter (λ r, Row.id r = c) (comments_tbl s).
Proof.
  unfold delete_likes. simpl.
  generalize (filter (λ l, Like.id l = likeId ∧ may_delete_like uid l)
                     (comment_likes_tbl s)).
  generalize (comments_tbl s). intros tbl victims. revert tbl.
  induction victims as [|l victims IH]; intros tbl Hno; simpl; [done|].
  rewrite IH.
  - by apply update_comment_likes_count_filter_others.
  - intros r Hr Hid.
    assert (r ∈ filter (λ r, Row.id r = c)
                  (update_comment_likes_count uid now (-1) (Like.comment_id l) tbl))
      as Hin by (by apply list_elem_of_filter).
    rewrite update_comment_likes_count_filter_others in Hin by done.
    apply list_elem_of_filter in Hin as [_ Hin]. by apply Hno.
Qed.

Lemma insert_like_filter_others uid fresh now commentId userId c s s' :
  insert_like uid fresh now commentId userId s = inr s' →
  (∀ r, r ∈ comments_tbl s → Row.id r = c → ¬ may_update_comment uid r) →
  filter (λ r, Row.id r = c) (comments_tbl s')
  = filter (λ r, Row.id r = c) (comments_tbl s).
Proof.
  unfold insert_like. intros Hrun Hno.
  repeat case_match; simplify_eq. simpl.
  by apply update_comment_likes_count_filter_others.
Qed.

(** X16. Whatever the store holds and answers, when a signed-in user
    toggles a like, the rows of a comment that user did not write are the
    same afterwards, [likes_count] included: the count of someone else's
    comment never moves. *)
Theorem toggleCommentLike_rows_of_others (postId : option string)
    (commentId c : string) (u : AuthUser.t) (s : App) :
  session (world s) = Some u →
  (∀ r, r ∈ comments_tbl (db (world s)) → Row.id r = c →
        Row.author_id r ≠ AuthUser.id u) →
  filter (λ r, Row.id r = c)
         (comments_tbl (db (world (toggleCommentLike postId commentId s).2)))
  = filter (λ r, Row.id r = c) (comments_tbl (db (world s))).
Proof.
  intros Hu Hothers.
  destruct (toggleCommentLike_inv postId commentId u s Hu)
    as (r1 & s1 & q & run & r2 & s2 & s3 & Hsel & Hmut & Hfetch & -> & Hq).
  simpl.
  destruct (comment_likes_select_single_inv commentId (AuthUser.id u) s)
    as (? & ? & Hsel' & _ & _ & Hd1 & Hs1 & _).
  rewrite Hsel in Hsel'. injection Hsel' as <- <-.
  destruct (mutate_inv q run s1) as (? & ? & Hmut' & _ & _ & _ & _ & _ & _ & _ & Hd2).
  rewrite Hmut in Hmut'. injection Hmut' as <- <-.
  destruct (fetchComments_inv postId s2) as (? & Hfetch' & _ & Hd3 & _).
  rewrite Hfetch in Hfetch'. injection Hfetch' as <-.
  rewrite Hd3, Hd2, <- Hd1.
  assert (∀ r, r ∈ comments_tbl (db (world s1)) → Row.id r = c →
               ¬ may_update_comment (auth_uid (world s1)) r) as Hno.
  { intros r Hr Hid. unfold may_update_comment, auth_uid. rewrite Hs1, Hu. simpl.
    intros [= Heq]. rewrite Hd1 in Hr. by eapply Hothers. }
  unfold outcome. destruct (fates (world s1)) as [|[fresh now|e] rest]; try done.
  destruct (data r1) as [likeId|]; destruct Hq as [-> ->].
  - by apply delete_likes_filter_others.
  - destruct (insert_like _ _ _ _ _ _) as [e|d] eqn:Hins; [done|].
    by eapply insert_like_filter_others.
Qed.

Lemma toggleCommentLike_rows_of_others_witness :
  (session (world bob_online) = Some bob
   ∧ ∀ r, r ∈ comments_tbl (db (world bob_online)) → Row.id r = "c1" →
          Row.author_id r ≠ AuthUser.id bob)
  ∧ filter (λ r, Row.id r = "c1")
           (comments_tbl (db (world (toggleCommentLike (Some "post-1") "c1"
                                                       bob_online).2)))
    = filter (λ r, Row.id r = "c1") (comments_tbl (db (world bob_online))).
Proof.
  assert (∀ r, r ∈ comments_tbl (db (world bob_online)) → Row.id r = "c1" →
               Row.author_id r ≠ AuthUser.id bob) as Hothers.
  { intros r Hr Hid. simpl in Hr.
    repeat (apply elem_of_cons in Hr as [->|Hr]); try done.
    by apply elem_of_nil in Hr. }
  split; [by split|].
  by apply (toggleCommentLike_rows_of_others (Some "post-1") "c1" "c1" bob bob_online).
Defined.

(** ** The handlers of [CommentSection] *)

Lemma perform_form postId m s : form (perform postId m s).2 = form s.
Proof.
  assert (∀ s1, form (fetchComments postId s1).2 = form s1) as Hfetch.
  { intros s1. by destruct (fetchComments_inv postId s1) as (s2 & -> & Hf & _). }
  destruct m as [text parentId|commentId|commentId]; simpl.
  - rewrite createComment_unfold.
    destruct (or_null postId) as [post|]; [|done].
    destruct (session (world s)) as [u|]; [|done].
    unfold comments_insert.
    match goal with |- context [mutate ?q ?run s] =>
      destruct (mutate_inv q run s) as (r & s1 & -> & _ & Hf & _)
    end.
    destruct (error r); [done|]. by rewrite Hfetch.
  - rewrite deleteComment_unfold. unfold comments_delete.
    match goal with |- context [mutate ?q ?run s] =>
      destruct (mutate_inv q run s) as (r & s1 & -> & _ & Hf & _)
    end.
    destruct (error r); [done|]. by rewrite Hfetch.
  - destruct (session (world s)) as [u|] eqn:Hu;
      [|by rewrite toggleCommentLike_unfold, Hu].
    destruct (toggleCommentLike_inv postId commentId u s Hu)
      as (r1 & s1 & q & run & r2 & s2 & s3 & Hsel & Hmut & Hf3 & -> & _).
    simpl.
    destruct (comment_likes_select_single_inv commentId (AuthUser.id u) s)
      as (? & ? & Hsel' & _ & Hf1 & _).
    rewrite Hsel in Hsel'. injection Hsel' as <- <-.
    destruct (mutate_inv q run s1) as (? & ? & Hmut' & _ & Hf2 & _).
    rewrite Hmut in Hmut'. injection Hmut' as <- <-.
    specialize (Hfetch s2). rewrite Hf3 in Hfetch. simpl in Hfetch. congruence.
Qed.

Lemma try_catch_swallow (body : M ()) s :
  (try_catch body (λ _, mret ()) s).1 = inr ().
Proof. unfold try_catch. by destruct (body s) as [[e|[]] s']. Qed.

(** X17. The four handlers of [CommentSection] never throw: whatever the
    hook throws is caught, and the guards return. *)
Theorem handlers_never_throw (postId : string) (user : option AuthUser.t) (s : App) :
  (handleSubmitComment postId user s).1 = inr ()
  ∧ (∀ parentId, (handleSubmitReply postId user parentId s).1 = inr ())
  ∧ (∀ confirmed commentId,
       (handleDeleteComment postId confirmed commentId s).1 = inr ())
  ∧ (∀ commentId, (handleToggleLike postId user commentId s).1 = inr ()).
Proof.
  split_and!.
  - unfold handleSubmitComment, mbind, M_bind, get_form. simpl.
    destruct (_ || _); [done|]. apply try_catch_swallow.
  - intros parentId. unfold handleSubmitReply, mbind, M_bind, get_form. simpl.
    destruct (_ || _); [done|]. apply try_catch_swallow.
  - intros confirmed commentId. unfold handleDeleteComment.
    destruct (negb confirmed); [done|]. apply try_catch_swallow.
  - intros commentId. unfold handleToggleLike.
    destruct (negb (is_object user)); [done|]. apply try_catch_swallow.
Qed.

(** X18. A submit handler clears its text area only after [createComment]
    resolved.  When the call throws, the comment draft or the reply draft,
    and the open reply box, are as before; when it resolves, the comment
    handler empties the comment draft and nothing else, the reply handler
    empties the reply draft and closes the reply box. *)
Theorem submit_handlers_draft (postId : string) (user : option AuthUser.t)
    (parentId : string) (s : App) :
  (∀ e s1,
     createComment (Some postId) (newComment (form s)) None s = (inl e, s1) →
     form (handleSubmitComment postId user s).2 = form s)
  ∧ (∀ s1,
       truthy (trim (newComment (form s))) = true → is_Some user →
       createComment (Some postId) (newComment (form s)) None s = (inr (), s1) →
       form (handleSubmitComment postId user s).2
       = {| newComment := ""; replyingTo := replyingTo (form s);
            replyContent := replyContent (form s) |})
  ∧ (∀ e s1,
       createComment (Some postId) (replyContent (form s)) (Some parentId) s
       = (inl e, s1) →
       form (handleSubmitReply postId user parentId s).2 = form s)
  ∧ (∀ s1,
       truthy (trim (replyContent (form s))) = true → is_Some user →
       createComment (Some postId) (replyContent (form s)) (Some parentId) s
       = (inr (), s1) →
       form (handleSubmitReply postId user parentId s).2
       = {| newComment := newComment (form s); replyingTo := None;
            replyContent := "" |}).
Proof.
  assert (∀ text parent, form (createComment (Some postId) text parent s).2 = form s)
    as Hform.
  { intros text parent. apply (perform_form (Some postId) (CreateComment text parent)). }
  split_and!.
  - intros e s1 Hrun. unfold handleSubmitComment, mbind, M_bind, get_form. simpl.
    destruct (_ || _); [done|]. unfold try_catch. rewrite Hrun. simpl.
    specialize (Hform (newComment (form s)) None). by rewrite Hrun in Hform.
  - intros s1 Htext [u ->] Hrun.
    unfold handleSubmitComment, mbind, M_bind, get_form. simpl.
    rewrite Htext. simpl. unfold try_catch. rewrite Hrun. simpl.
    specialize (Hform (newComment (form s)) None). rewrite Hrun in Hform. simpl in Hform.
    by rewrite Hform.
  - intros e s1 Hrun. unfold handleSubmitReply, mbind, M_bind, get_form. simpl.
    destruct (_ || _); [done|]. unfold try_catch. rewrite Hrun. simpl.
    specialize (Hform (replyContent (form s)) (Some parentId)). by rewrite Hrun in Hform.
  - intros s1 Htext [u ->] Hrun.
    unfold handleSubmitReply, mbind, M_bind, get_form. simpl.
    rewrite Htext. simpl. unfold try_catch. rewrite Hrun. simpl.
    specialize (Hform (replyContent (form s)) (Some parentId)).
    rewrite Hrun in Hform. simpl in Hform. by rewrite Hform.
Qed.

Lemma submit_handlers_draft_witness :
  createComment (Some "post-1") (newComment (form expired_draft)) None expired_draft
  = (inl (Error "Not authenticated"), expired_draft)
  ∧ form (handleSubmitComment "post-1" (Some alice) expired_draft).2 = form expired_draft.
Proof.
  assert (createComment (Some "post-1") (newComment (form expired_draft)) None expired_draft
          = (inl (Error "Not authenticated"), expired_draft)) as Hrun by done.
  split; [done|].
  by apply (proj1 (submit_handlers_draft "post-1" (Some alice) "c1" expired_draft)
              _ _ Hrun).
Defined.

(** ** The slug of a post *)

Ltac each_code_unit a :=
  destruct a as [[] [] [] [] [] [] [] []]; vm_compute; intros; try done.

Lemma to_lower_char_lowered a : in_range 65 90 (to_lower_char a) = false.
Proof. each_code_unit a. Qed.

Lemma kept_lowered_slug_char a :
  in_range 65 90 a = false →
  is_word a || is_white_space a || is_hyphen a = true →
  is_white_space a = false →
  slug_char a = true.
Proof. each_code_unit a. Qed.

Lemma slug_char_fixed a :
  slug_char a = true →
  to_lower_char a = a
  ∧ is_word a || is_white_space a || is_hyphen a = true
  ∧ is_white_space a = false.
Proof. each_code_unit a. Qed.

Lemma string_all_map (p : Ascii.ascii → bool) f s :
  (∀ a, p (f a) = true) → string_all p (string_map f s) = true.
Proof. intros Hp. induction s as [|a s IH]; simpl; [done|]. by rewrite Hp, IH. Qed.

Lemma string_all_filter (p q : Ascii.ascii → bool) s :
  string_all q s = true →
  string_all (λ a, q a && p a) (string_filter p s) = true.
Proof.
  induction s as [|a s IH]; simpl; [done|].
  intros [Ha Hs]%andb_true_iff. destruct (p a) eqn:Hp; simpl; [|by apply IH].
  by rewrite Ha, Hp, IH.
Qed.

Lemma string_all_dash_runs (q r : Ascii.ascii → bool) in_run s :
  (∀ a, q a = true → is_white_space a = false → r a = true) →
  r hyphen = true →
  string_all q s = true →
  string_all r (dash_runs in_run s) = true.
Proof.
  intros Hqr Hr. revert in_run. induction s as [|a s IH]; intros in_run; simpl; [done|].
  intros [Ha Hs]%andb_true_iff.
  destruct (is_white_space a) eqn:Hws.
  - destruct in_run; simpl; [by apply IH|]. by rewrite Hr, IH.
  - simpl. by rewrite (Hqr a), IH.
Qed.

Lemma slugify_slug_chars (title : string) :
  string_all slug_char (slugify title) = true.
Proof.
  unfold slugify, strip_punctuation, toLowerCase.
  apply (string_all_dash_runs
           (λ a, negb (in_range 65 90 a)
                 && (is_word a || is_white_space a || is_hyphen a))).
  - intros a [Hlow Hkeep]%andb_true_iff Hws.
    apply negb_true_iff in Hlow. by apply kept_lowered_slug_char.
  - done.
  - apply string_all_filter, string_all_map.
    intros a. by rewrite to_lower_char_lowered.
Qed.

Lemma string_map_fixed (p : Ascii.ascii → bool) f s :
  (∀ a, p a = true → f a = a) → string_all p s = true → string_map f s = s.
Proof.
  intros Hf. induction s as [|a s IH]; simpl; [done|].
  intros [Ha Hs]%andb_true_iff. by rewrite Hf, IH.
Qed.

Lemma string_filter_fixed (p q : Ascii.ascii → bool) s :
  (∀ a, p a = true → q a = true) → string_all p s = true → string_filter q s = s.
Proof.
  intros Hq. induction s as [|a s IH]; simpl; [done|].
  intros [Ha Hs]%andb_true_iff. by rewrite Hq, IH.
Qed.

Lemma dash_runs_fixed (p : Ascii.ascii → bool) in_run s :
  (∀ a, p a = true → is_white_space a = false) →
  string_all p s = true → dash_runs in_run s = s.
Proof.
  intros Hws. revert in_run. induction s as [|a s IH]; intros in_run; simpl; [done|].
  intros [Ha Hs]%andb_true_iff. by rewrite Hws, IH.
Qed.

(** X19. Whatever the title, the slug [createPost] derives from it holds
    only lower-case letters, digits, underscores and hyphens (no white
    space, no capital, no punctuation), and it is its own slug: deriving
    the slug again changes nothing. *)
Theorem slugify_normal_form (title : string) :
  string_all slug_char (slugify title) = true
  ∧ slugify (slugify title) = slugify title.
Proof.
  pose proof (slugify_slug_chars title) as Hall. split; [done|].
  generalize dependent (slugify title). intros s Hall.
  unfold slugify, strip_punctuation, toLowerCase.
  rewrite (string_map_fixed slug_char) by (done || intros a Ha; by apply slug_char_fixed).
  rewrite (string_filter_fixed slug_char)
    by (done || intros a Ha; by apply slug_char_fixed).
  apply (dash_runs_fixed slug_char); [|done].
  intros a Ha. by apply slug_char_fixed.
Qed.

(** ** The tags of the post form *)

Lemma chars_inj s t : chars s = chars t → s = t.
Proof.
  revert t. induction s as [|a s IH]; intros [|b t]; simpl; try done.
  intros [= -> Hst]. f_equal. by apply IH.
Qed.

Lemma chars_rev_app s1 s2 :
  chars (String.rev_app s1 s2) = reverse (chars s1) ++ chars s2.
Proof.
  revert s2. induction s1 as [|a s1 IH]; intros s2; simpl; [done|].
  by rewrite IH, reverse_cons, <- app_assoc.
Qed.

Lemma chars_rev s : chars (String.rev s) = reverse (chars s).
Proof. unfold String.rev. by rewrite chars_rev_app, app_nil_r. Qed.

Lemma chars_trim_start s : chars (trim_start s) = drop_white_space (chars s).
Proof.
  induction s as [|a s IH]; simpl; [done|]. by destruct (is_white_space a).
Qed.

Lemma chars_trim s :
  chars (trim s)
  = reverse (drop_white_space (reverse (drop_white_space (chars s)))).
Proof. unfold trim. by rewrite chars_rev, chars_trim_start, chars_rev, chars_trim_start. Qed.

Lemma drop_white_space_idem l :
  drop_white_space (drop_white_space l) = drop_white_space l.
Proof.
  induction l as [|a l IH]; simpl; [done|].
  destruct (is_white_space a) eqn:Ha; [done|]. simpl. by rewrite Ha.
Qed.

Lemma drop_white_space_snoc l a :
  is_white_space a = false → ∃ k, drop_white_space (l ++ [a]) = k ++ [a].
Proof.
  intros Ha. induction l as [|b l IH]; simpl.
  - rewrite Ha. by exists [].
  - destruct (is_white_space b); [done|]. by exists (b :: l).
Qed.

Lemma drop_white_space_Forall (P : Ascii.ascii → Prop) l :
  Forall P l → Forall P (drop_white_space l).
Proof.
  induction 1 as [|a l Ha Hl IH]; simpl; [done|].
  destruct (is_white_space a); [done|]. by constructor.
Qed.

(** Trimming twice is trimming once. *)
Lemma trim_idempotent s : trim (trim s) = trim s.
Proof.
  apply chars_inj. rewrite (chars_trim (trim s)), chars_trim.
  set (u := drop_white_space (chars s)).
  assert (drop_white_space u = u) as Hu by apply drop_white_space_idem.
  set (v := reverse (drop_white_space (reverse u))).
  assert (drop_white_space v = v) as Hv.
  { unfold v. destruct u as [|a u'] eqn:Heq; [done|].
    assert (is_white_space a = false) as Ha.
    { simpl in Hu. destruct (is_white_space a) eqn:Ha; [|done].
      exfalso. assert (length (drop_white_space u') ≤ length u') as Hlen.
      { clear. induction u' as [|b l IH]; simpl; [done|].
        destruct (is_white_space b); simpl; lia. }
      rewrite Hu in Hlen. simpl in Hlen. lia. }
    rewrite reverse_cons.
    destruct (drop_white_space_snoc (reverse u') a Ha) as [k ->].
    rewrite reverse_snoc. simpl. by rewrite Ha. }
  rewrite Hv. unfold v at 1. rewrite reverse_involutive.
  by rewrite drop_white_space_idem.
Qed.

Lemma string_all_Forall (p : Ascii.ascii → bool) s :
  string_all p s = true ↔ Forall (λ a, p a = true) (chars s).
Proof.
  induction s as [|a s IH]; simpl; [done|].
  rewrite andb_true_iff, Forall_cons, IH. done.
Qed.

Lemma string_all_trim (p : Ascii.ascii → bool) s :
  string_all p s = true → string_all p (trim s) = true.
Proof.
  rewrite !string_all_Forall, chars_trim. intros Hs.
  by apply Forall_reverse, drop_white_space_Forall, Forall_reverse,
     drop_white_space_Forall.
Qed.

Lemma split_commas_pieces s t :
  t ∈ split_commas s → string_all (λ a, negb (is_comma a)) t = true.
Proof.
  revert t. induction s as [|a s IH]; intros t; simpl.
  - by intros ->%list_elem_of_singleton.
  - destruct (is_comma a) eqn:Ha.
    + intros [->|Ht]%elem_of_cons; [done | by apply IH].
    + destruct (split_commas s) as [|u us]; simpl.
      * intros ->%list_elem_of_singleton. simpl. by rewrite Ha.
      * intros [->|Ht]%elem_of_cons.
        -- simpl. rewrite Ha. simpl. apply IH. by left.
        -- apply IH. by right.
Qed.

(** X20. Every tag the post form hands to [createPost] and [updatePost] is
    clean: not empty, without white space at either end, without a
    comma. *)
Theorem parse_tags_clean (s t : string) : t ∈ parse_tags s → clean_tag t.
Proof.
  unfold parse_tags. intros [Hlen Ht]%list_elem_of_filter.
  apply list_elem_of_fmap in Ht as (t0 & -> & Ht0).
  split_and!.
  - intros Hempty. rewrite Hempty in Hlen. simpl in Hlen. lia.
  - apply trim_idempotent.
  - by eapply string_all_trim, split_commas_pieces.
Qed.

Lemma parse_tags_clean_witness :
  "b c" ∈ parse_tags " a, b c ,," ∧ clean_tag "b c".
Proof.
  assert ("b c" ∈ parse_tags " a, b c ,,") as Hin.
  { apply (bool_decide_unpack _). by vm_compute. }
  split; [done|]. by apply (parse_tags_clean " a, b c ,,").
Defined.

Lemma split_commas_plain t :
  string_all (λ a, negb (is_comma a)) t = true → split_commas t = [t].
Proof.
  induction t as [|a t IH]; simpl; [done|].
  intros [Ha Ht]%andb_true_iff. apply negb_true_iff in Ha. by rewrite Ha, IH.
Qed.

Lemma split_commas_app t r :
  string_all (λ a, negb (is_comma a)) t = true →
  split_commas (t +:+ String comma r) = t :: split_commas r.
Proof.
  induction t as [|a t IH]; [done|].
  intros [Ha Ht]%andb_true_iff. apply negb_true_iff in Ha.
  change (String a t +:+ String comma r) with (String a (t +:+ String comma r)).
  simpl. by rewrite Ha, IH.
Qed.

Lemma split_commas_join t ts :
  Forall (λ t, string_all (λ a, negb (is_comma a)) t = true) (t :: ts) →
  split_commas (join_tags (t :: ts)) = t :: (String space <$> ts).
Proof.
  revert t. induction ts as [|t2 ts IH]; intros t [Ht Hts]%Forall_cons.
  - simpl. by apply split_commas_plain.
  - change (join_tags (t :: t2 :: ts))
      with (t +:+ String comma (String space (join_tags (t2 :: ts)))).
    rewrite split_commas_app by done.
    change (split_commas (String space (join_tags (t2 :: ts))))
      with (match split_commas (join_tags (t2 :: ts)) with
            | u :: us => String space u :: us
            | [] => [String space EmptyString]
            end).
    by rewrite IH.
Qed.

(** X21. The form reads back what it shows: the tags of a post, joined
    with ", " for the text field of the edit form and parsed again on
    submit, are the tags of the post, as long as they are clean, which the
    tags the form itself produced are. *)
Theorem parse_tags_join_tags (tags : list string) :
  Forall clean_tag tags → parse_tags (join_tags tags) = tags.
Proof.
  intros Hclean. destruct tags as [|t ts]; [done|].
  unfold parse_tags. rewrite split_commas_join.
  2:{ eapply Forall_impl; [exact Hclean|]. by intros x (_ & _ & ?). }
  assert (trim <$> (t :: (String space <$> ts)) = t :: ts) as ->.
  { apply Forall_cons in Hclean as [(_ & Ht & _) Hts]. rewrite fmap_cons, Ht. f_equal.
    rewrite <- list_fmap_compose. rewrite <- (list_fmap_id ts) at 2.
    apply list_fmap_ext. intros i x Hx. simpl.
    rewrite Forall_forall in Hts. apply list_elem_of_lookup_2 in Hx.
    destruct (Hts x Hx) as (_ & Hx' & _).
    rewrite <- Hx' at 2. done. }
  apply filter_all. eapply Forall_impl; [exact Hclean|].
  intros x (Hne & _). destruct x; [done | simpl; lia].
Qed.

Lemma parse_tags_join_tags_witness :
  Forall clean_tag ["rocq"; "formal methods"]
  ∧ parse_tags (join_tags ["rocq"; "formal methods"]) = ["rocq"; "formal methods"].
Proof.
  assert (Forall clean_tag ["rocq"; "formal methods"]) as Hclean.
  { repeat first [ apply Forall_nil_2 | apply Forall_cons_2; [by split_and!|] ]. }
  split; [done|]. by apply parse_tags_join_tags.
Defined.
